(** * Sitemapper: the crawl scheduler of [Sitemapper.py]

    A shallow embedding of [extract_links], [get_hostname], [split_links],
    [get_path_depth], [crawl_website] and [extract_directories], and the
    properties of the crawl that follow from the code.

    Python's [set] is a [gset string], [str] is [string], an [int] read
    by argparse is a [Z].  The three library calls the program makes
    ([urlparse], [urljoin], [requests.get]) are parameters of the
    development; small models of them are given for the worked runs.
    [urlparse] and [urljoin] are taken to return on every string: the
    [ValueError] that [urllib] raises on a malformed bracketed host, the
    one thing that reaches the [except Exception] of [process_url], is
    left out. *)

From Stdlib Require Import ZArith String Ascii List Lia Bool.
From stdpp Require Import base decidable relations gmap sets strings list.

#[local] Set Warnings "-clear-no-such-hyp".


(** ** The [str] methods the program calls *)

Module PyStr.

(** [s.startswith(p)] *)
Definition startswith (p s : string) : bool := String.prefix p s.

(** [c in chars], for one character *)
Fixpoint char_in (c : ascii) (chars : string) : bool :=
  match chars with
  | EmptyString => false
  | String d rest => Ascii.eqb c d || char_in c rest
  end.

(** [s.lstrip(chars)]: drops leading characters while they belong to
    the SET of characters [chars]. *)
Fixpoint lstrip (chars s : string) : string :=
  match s with
  | EmptyString => EmptyString
  | String c rest => if char_in c chars then lstrip chars rest else s
  end.

(** [sub in s] *)
Fixpoint contains (sub s : string) : bool :=
  String.prefix sub s ||
  match s with
  | EmptyString => false
  | String _ rest => contains sub rest
  end.

(** [s.endswith(c)], for a one-character suffix *)
Fixpoint endswith_char (c : ascii) (s : string) : bool :=
  match s with
  | EmptyString => false
  | String d EmptyString => Ascii.eqb d c
  | String _ rest => endswith_char c rest
  end.

(** [s.split(c)], for a one-character separator: never empty,
    [''.split('/') == ['']]. *)
Fixpoint split (c : ascii) (s : string) : list string :=
  match s with
  | EmptyString => [EmptyString]
  | String d rest =>
      if Ascii.eqb d c then EmptyString :: split c rest
      else match split c rest with
           | [] => [String d EmptyString]
           | seg :: segs => String d seg :: segs
           end
  end.

(** The text before the LAST [c] of [s], when [s] has one. *)
Fixpoint before_last (c : ascii) (s : string) : option string :=
  match s with
  | EmptyString => None
  | String d rest =>
      match before_last c rest with
      | Some r => Some (String d r)
      | None => if Ascii.eqb d c then Some EmptyString else None
      end
  end.

(** [s.rsplit(c, 1)[0]]: the text before the last [c], the whole of
    [s] when there is none. *)
Definition rsplit1_head (c : ascii) (s : string) : string :=
  default s (before_last c s).

(** [not s], the truth value of a string *)
Definition is_empty (s : string) : bool :=
  match s with EmptyString => true | _ => false end.

(** [s.partition(c)[0]] and [s.partition(c)[2]] *)
Fixpoint partition_head (c : ascii) (s : string) : string :=
  match s with
  | EmptyString => EmptyString
  | String d rest =>
      if Ascii.eqb d c then EmptyString else String d (partition_head c rest)
  end.

Fixpoint partition_tail (c : ascii) (s : string) : string :=
  match s with
  | EmptyString => EmptyString
  | String d rest => if Ascii.eqb d c then rest else partition_tail c rest
  end.

(** [s.rpartition(c)[2]]: the text after the last [c], else [s]. *)
Fixpoint rpartition_tail (c : ascii) (s : string) : string :=
  match s with
  | EmptyString => EmptyString
  | String d rest =>
      if char_in c rest then rpartition_tail c rest
      else if Ascii.eqb d c then rest else s
  end.

Definition lower_char (c : ascii) : ascii :=
  let n := nat_of_ascii c in
  if (65 <=? n)%nat && (n <=? 90)%nat then ascii_of_nat (n + 32) else c.

(** [s.lower()] on ASCII text *)
Fixpoint lower (s : string) : string :=
  match s with
  | EmptyString => EmptyString
  | String c rest => String (lower_char c) (lower rest)
  end.

End PyStr.

(** ** Data *)

(** What the program reads of [urlparse(url)]. [hostname] is [None]
    when the URL has no host. *)
Record ParseResult := {
  scheme : string;
  hostname : option string;
  path : string
}.

(** A tag of the parsed page: its name and its attribute dictionary. *)
Record Tag := {
  tag_name : string;
  tag_attrs : gmap string string
}.

(** A response of [requests.get]: the status code, the [Content-Type]
    header when there is one, and [response.text] as [html.parser] reads
    it, its tags in document order. *)
Record Response := {
  status_code : Z;
  content_type : option string;
  html : list Tag
}.

(** The parsed command line, [args]. *)
Module Args.
Record Namespace := {
  url : string;
  verbose : bool;
  threads : Z;
  max : Z;
  depth : Z;
  full_links : bool
}.
End Args.

(** The lines the program prints. *)
Inductive Msg :=
| RequestFailed (url : string)
| SkippedHTTP (url : string) (status : Z)
| SkippedNonHTML (url : string) (ctype : string)
| SkippedExternal (url : string)
| Crawled (n : nat)
| ReachedMax (n : Z)
| Found (n : nat) (what : string)
| Line (s : string).

(** What a task hands back to the scheduler, the tuple
    [(url, internal, external, mailtos, non_htmls)] of [process_url]. *)
Record Result := {
  current_url : string;
  internal : gset string;
  external : gset string;
  mailtos : gset string;
  non_htmls : gset string
}.

(** The variables of [crawl_website].  [pending] holds the URLs of the
    futures of [current_batch] that [as_completed] has not yielded yet;
    [stdout] is what has been printed, the lines of a task placed where
    its future is yielded. *)
Record State := {
  visited : gset string;
  to_visit : gset string;
  current_batch : gset string;
  pending : gset string;
  all_internal : gset string;
  all_external : gset string;
  mailto_links : gset string;
  non_html_links : gset string;
  done : bool;
  stdout : list Msg
}.

(** One turn of the scheduler: the [while] loop takes a new batch, or
    [as_completed] yields the future of a URL. *)
Inductive Event :=
| Dispatch
| Complete (url : string).

(** ** Models of the library calls, for the worked runs

    [urlparse_model] follows [urllib.parse.urlsplit] on URLs of the shape
    [scheme://userinfo@host:port/path?query#fragment] (each part but the
    path optional): no bracketed IPv6 host, no [;params], no leading
    blanks. *)

Definition scheme_chars : string :=
  "abcdefghijklmnopqrstuvwxyzABCDEFGHIJKLMNOPQRSTUVWXYZ0123456789+-.".

Definition is_alpha (c : ascii) : bool :=
  let n := nat_of_ascii (PyStr.lower_char c) in (97 <=? n)%nat && (n <=? 122)%nat.

Fixpoint all_in (chars s : string) : bool :=
  match s with
  | EmptyString => true
  | String c rest => PyStr.char_in c chars && all_in chars rest
  end.

(** The scheme of a URL and what follows its colon. *)
Definition split_scheme (url : string) : string * string :=
  let head := PyStr.partition_head ":" url in
  match url with
  | String c _ =>
      if PyStr.char_in ":" url && negb (PyStr.is_empty head)
         && is_alpha c && all_in scheme_chars head
      then (PyStr.lower head, PyStr.partition_tail ":" url)
      else (EmptyString, url)
  | EmptyString => (EmptyString, url)
  end.

(** The text up to the first of [/], [?], [#], and the rest. *)
Fixpoint splitnetloc (s : string) : string * string :=
  match s with
  | EmptyString => (EmptyString, EmptyString)
  | String c rest =>
      if PyStr.char_in c "/?#" then (EmptyString, s)
      else let '(n, r) := splitnetloc rest in (String c n, r)
  end.

Definition split_url (url : string) : string * string * string :=
  let '(sch, rest) := split_scheme url in
  match rest with
  | String "/" (String "/" after) =>
      let '(netloc, rest') := splitnetloc after in (sch, netloc, rest')
  | _ => (sch, EmptyString, rest)
  end.

Definition hostname_of_netloc (netloc : string) : option string :=
  let hostinfo := PyStr.rpartition_tail "@" netloc in
  let host := PyStr.partition_head ":" hostinfo in
  if PyStr.is_empty host then None else Some (PyStr.lower host).

Definition urlparse_model (url : string) : ParseResult :=
  let '(sch, netloc, rest) := split_url url in
  {| scheme := sch;
     hostname := hostname_of_netloc netloc;
     path := PyStr.partition_head "?" (PyStr.partition_head "#" rest) |}.

(** [urljoin_model] follows [urllib.parse.urljoin] on the references the
    worked runs use: a reference with a scheme of its own is returned as
    it is, one that starts with [/] replaces the path of the base.  Other
    relative references are appended to the directory of the base, with
    no dot-segment resolution. *)
Definition urljoin_model (base url : string) : string :=
  let '(bscheme, bnetloc, brest) := split_url base in
  let bpath := PyStr.partition_head "?" (PyStr.partition_head "#" brest) in
  if PyStr.is_empty url then base
  else if negb (PyStr.is_empty (fst (split_scheme url))) then url
  else if PyStr.startswith "//" url then (bscheme +:+ ":" +:+ url)
  else if PyStr.startswith "/" url
  then (bscheme +:+ "://" +:+ bnetloc +:+ url)
  else (bscheme +:+ "://" +:+ bnetloc
        +:+ PyStr.rsplit1_head "/" bpath +:+ "/" +:+ url).

(** ** Sites for the worked runs *)

Definition anchor (href : string) : Tag :=
  {| tag_name := "a"; tag_attrs := {["href" := href]} |}.

Definition html_page (tags : list Tag) : Response :=
  {| status_code := 200; content_type := Some "text/html; charset=utf-8";
     html := tags |}.

Definition not_found : Response :=
  {| status_code := 404; content_type := Some "text/html"; html := [] |}.

(** A server: the pages it has, a [RequestException] for any other URL. *)
Definition serve (pages : gmap string Response) (url : string)
    : option Response := pages !! url.

Definition cli (start_url : string) (max depth : Z) : Args.Namespace :=
  {| Args.url := start_url; Args.verbose := false; Args.threads := 1;
     Args.max := max; Args.depth := depth; Args.full_links := false |}.

(** The same command line with [-v], [-f] and four threads. *)
Definition cli_loud (start_url : string) (max depth : Z) : Args.Namespace :=
  {| Args.url := start_url; Args.verbose := true; Args.threads := 4;
     Args.max := max; Args.depth := depth; Args.full_links := true |}.

(** The seed links to [/a] and [/b], which link to each other. *)
Definition ring_site : gmap string Response :=
  {[ "https://example.com/" := html_page [anchor "/a"; anchor "/b"];
     "https://example.com/a" := html_page [anchor "/b"];
     "https://example.com/b" := html_page [anchor "/a"] ]}.

(** One page with the four kinds of reference, and a missing page. *)
Definition mixed_site : gmap string Response :=
  {[ "https://example.com/" :=
       html_page [anchor "/about"; anchor "https://other.com";
                  anchor "mailto:x@y.com"; anchor "#top"];
     "https://example.com/about" := not_found ]}.

(** A page at depth 0 with a link at depth 3 and one at depth 1. *)
Definition deep_site : gmap string Response :=
  {[ "https://example.com/" := html_page [anchor "/a/b/c"; anchor "/a"];
     "https://example.com/a" := html_page [] ]}.

(** A page with a text-message link. *)
Definition sms_site : gmap string Response :=
  {[ "https://example.com/" := html_page [anchor "sms:+15550100"] ]}.

(** A page without links. *)
Definition leaf_site : gmap string Response :=
  {[ "https://example.com/" := html_page [] ]}.

(** A seed on [www.wikipedia.org] that links to a page of the host
    [ikipedia.org], which links on. *)
Definition wiki_site : gmap string Response :=
  {[ "https://www.wikipedia.org/" :=
       html_page [anchor "https://ikipedia.org/b"];
     "https://ikipedia.org/b" := html_page [anchor "/c"] ]}.


(** ** The program *)

Section Sitemapper.

(** [urllib.parse.urlparse], [urllib.parse.urljoin] and [requests.get]
    (with the headers and the timeout of [extract_links]); [None] is a
    [requests.RequestException]. *)
Variable urlparse : string → ParseResult.
Variable urljoin : string → string → string.
Variable requests_get : string → option Response.

Definition no_links : gset string * gset string * gset string := (∅, ∅, ∅).

(** [soup.find_all(names)] *)
Definition find_all (names : list string) (soup : list Tag) : list Tag :=
  List.filter (λ tag, bool_decide (tag_name tag ∈ names)) soup.

(** [link.startswith((p1, ..., pn))] *)
Definition startswith_any (ps : list string) (s : string) : bool :=
  existsb (λ p, PyStr.startswith p s) ps.

(** The body of the [for tag in ...] loop of [extract_links]. *)
Definition scan_tag (url : string)
    (acc : gset string * gset string * gset string) (tag : Tag)
    : gset string * gset string * gset string :=
  let '(links, mailtos, non_htmls) := acc in
  let attr :=
    if bool_decide (tag_name tag ∈ ["a"; "link"]) then "href" else "src" in
  match tag_attrs tag !! attr with
  | None => acc
  | Some link =>
      if PyStr.is_empty link then acc
      else if startswith_any ["SMS:"; "tel:"; "javascript:"; "data:"] link
              || PyStr.startswith "#" link
      then (links, mailtos, {[link]} ∪ non_htmls)
      else if PyStr.startswith "mailto:" link
      then (links, {[link]} ∪ mailtos, non_htmls)
      else ({[urljoin url link]} ∪ links, mailtos, non_htmls)
  end.

(** [extract_links(url)]: what it prints, and
    [(links, mailto_links, non_html_links)]. *)
Definition extract_links (a : Args.Namespace) (url : string)
    : list Msg * (gset string * gset string * gset string) :=
  match requests_get url with
  | None => ([RequestFailed url], no_links)
  | Some response =>
      if negb ((200 <=? status_code response)%Z
               && (status_code response <? 400)%Z)
      then (if Args.verbose a
            then [SkippedHTTP url (status_code response)] else [],
            no_links)
      else
        let ctype := default "" (content_type response) in
        if negb (PyStr.contains "html" ctype)
        then (if Args.verbose a then [SkippedNonHTML url ctype] else [],
              no_links)
        else
          ([], fold_left (scan_tag url)
                 (find_all ["a"; "link"; "script"; "img"] (html response))
                 no_links)
  end.

(** [get_hostname(url)] *)
Definition get_hostname (url : string) : string :=
  let hostname := default "" (hostname (urlparse url)) in
  if PyStr.startswith "www." hostname
  then PyStr.lstrip "www." hostname else hostname.

(** [split_links(base_url, links)]: [(internal_links, external_links)] *)
Definition split_links (base_url : string) (links : gset string)
    : gset string * gset string :=
  let base_host := get_hostname base_url in
  set_fold
    (λ link '(internal_links, external_links),
       if String.eqb (get_hostname link) base_host
       then ({[link]} ∪ internal_links, external_links)
       else (internal_links, {[link]} ∪ external_links))
    (∅, ∅) links.

(** [get_path_depth(url)] *)
Definition get_path_depth (url : string) : nat :=
  length (List.filter (λ segment, negb (PyStr.is_empty segment))
            (PyStr.split "/" (path (urlparse url)))).

(** [process_url(url)], the task of a worker: what it prints, and the
    tuple it returns. *)
Definition process_url (a : Args.Namespace) (start_url url : string)
    : list Msg * Result :=
  if negb (String.eqb (get_hostname url) (get_hostname start_url))
  then (if Args.verbose a then [SkippedExternal url] else [],
        {| current_url := url; internal := ∅; external := ∅;
           mailtos := ∅; non_htmls := ∅ |})
  else
    let '(out, (links, mailtos, non_htmls)) := extract_links a url in
    let '(internal, external) := split_links start_url links in
    (out, {| current_url := url; internal := internal;
             external := external; mailtos := mailtos;
             non_htmls := non_htmls |}).

(** [args.depth == 0 or get_path_depth(link) <= args.depth] *)
Definition depth_ok (a : Args.Namespace) (link : string) : bool :=
  (Args.depth a =? 0)%Z || (Z.of_nat (get_path_depth link) <=? Args.depth a)%Z.

(** The [for link in internal] loop of [crawl_website]: the new
    [to_visit]. *)
Definition queue_links (a : Args.Namespace)
    (visited to_visit links : gset string) : gset string :=
  set_fold
    (λ link to_visit,
       if bool_decide ((link ∉ visited) ∧ (link ∉ to_visit))
       then if depth_ok a link then {[link]} ∪ to_visit else to_visit
       else to_visit)
    to_visit links.

(** [args.max and len(visited) >= args.max] *)
Definition max_reached (a : Args.Namespace) (visited : gset string) : bool :=
  negb (Args.max a =? 0)%Z && (Args.max a <=? Z.of_nat (size visited))%Z.

(** The state at the [while] of [crawl_website]. *)
Definition init (start_url : string) : State :=
  {| visited := ∅; to_visit := {[start_url]};
     current_batch := ∅; pending := ∅;
     all_internal := ∅; all_external := ∅;
     mailto_links := ∅; non_html_links := ∅;
     done := false; stdout := [] |}.

(** The head of the [while] body: the batch is taken, [to_visit]
    cleared, one future submitted per URL of the batch. *)
Definition dispatch (s : State) : State :=
  {| visited := visited s; to_visit := ∅;
     current_batch := to_visit s; pending := to_visit s;
     all_internal := all_internal s; all_external := all_external s;
     mailto_links := mailto_links s; non_html_links := non_html_links s;
     done := done s; stdout := stdout s |}.

(** What the tasks of [urls] print.  When the loop breaks, the futures
    of the batch that were not yielded still run as the [with] block
    shuts the pool down, and print. *)
Definition drained (a : Args.Namespace) (start_url : string)
    (urls : gset string) : list Msg :=
  flat_map (λ url, (process_url a start_url url).1) (elements urls).

(** The body of [for future in as_completed(futures)], for the future
    of [url]. *)
Definition complete (a : Args.Namespace) (start_url : string)
    (s : State) (url : string) : State :=
  let '(out, r) := process_url a start_url url in
  let visited' := {[current_url r]} ∪ visited s in
  let printed := stdout s ++ out ++ [Crawled (size visited')] in
  if max_reached a visited'
  then
    {| visited := visited'; to_visit := to_visit s;
       current_batch := current_batch s; pending := ∅;
       all_internal := all_internal s; all_external := all_external s;
       mailto_links := mailto_links s; non_html_links := non_html_links s;
       done := true;
       stdout := printed ++ (if Args.verbose a
                             then [ReachedMax (Args.max a)] else [])
                 ++ drained a start_url (pending s ∖ {[url]}) |}
  else
    {| visited := visited';
       to_visit := queue_links a visited' (to_visit s) (internal r);
       current_batch := current_batch s; pending := pending s ∖ {[url]};
       all_internal := all_internal s ∪ internal r;
       all_external := all_external s ∪ external r;
       mailto_links := mailto_links s ∪ mailtos r;
       non_html_links := non_html_links s ∪ non_htmls r;
       done := false; stdout := printed |}.

(** The crawl, one turn at a time.  The futures of a batch complete in
    any order, whatever [thread_count] is: every URL still pending may
    be the next one [as_completed] yields. *)
Inductive step (a : Args.Namespace) (start_url : string)
    : State → State → Prop :=
| step_dispatch s :
    done s = false → pending s = ∅ → to_visit s ≠ ∅ →
    step a start_url s (dispatch s)
| step_complete s url :
    done s = false → url ∈ pending s →
    step a start_url s (complete a start_url s url).

Definition reachable (a : Args.Namespace) (start_url : string)
    (s : State) : Prop :=
  rtc (step a start_url) (init start_url) s.

(** [crawl_website] has left its loop. *)
Definition finished (s : State) : Prop :=
  done s = true ∨ (pending s = ∅ ∧ to_visit s = ∅).

(** The value [crawl_website] returns. *)
Definition returned (s : State)
    : gset string * gset string * gset string * gset string :=
  (all_internal s, all_external s, mailto_links s, non_html_links s).

(** A run under a given order of completion; [None] when the order
    asks for a turn the loop cannot take. *)
Definition turn (a : Args.Namespace) (start_url : string)
    (s : State) (e : Event) : option State :=
  match e with
  | Dispatch =>
      if negb (done s) && bool_decide (pending s = ∅)
         && bool_decide (to_visit s ≠ ∅)
      then Some (dispatch s) else None
  | Complete url =>
      if negb (done s) && bool_decide (url ∈ pending s)
      then Some (complete a start_url s url) else None
  end.

Fixpoint run (a : Args.Namespace) (start_url : string)
    (s : State) (es : list Event) : option State :=
  match es with
  | [] => Some s
  | e :: es' =>
      match turn a start_url s e with
      | Some s' => run a start_url s' es'
      | None => None
      end
  end.

(** [crawl_website(start_url, thread_count)] under a given order of
    completion; [ThreadPoolExecutor] refuses a [thread_count] that is
    not positive. *)
Definition crawl_website (a : Args.Namespace) (start_url : string)
    (thread_count : Z) (es : list Event) : option State :=
  if (thread_count <=? 0)%Z then None
  else run a start_url (init start_url) es.

(** The state of a run, its printed lines apart. *)
Definition silent (s : State) : State :=
  {| visited := visited s; to_visit := to_visit s;
     current_batch := current_batch s; pending := pending s;
     all_internal := all_internal s; all_external := all_external s;
     mailto_links := mailto_links s; non_html_links := non_html_links s;
     done := done s; stdout := [] |}.

(** The URL [extract_directories] builds for one link; the f-string
    prints a missing hostname as [None]. *)
Definition directory_url (url : string) : string :=
  let parsed := urlparse url in
  let path := path parsed in
  let path :=
    if negb (PyStr.endswith_char "/" path)
    then (PyStr.rsplit1_head "/" path +:+ "/") else path in
  (scheme parsed +:+ "://" +:+ default "None" (hostname parsed) +:+ path).

(** [extract_directories(links)] *)
Definition extract_directories (links : gset string) : gset string :=
  set_fold (λ url dirs, {[directory_url url]} ∪ dirs) ∅ links.

(** [sorted(links)] *)
Fixpoint insert_sorted (x : string) (l : list string) : list string :=
  match l with
  | [] => [x]
  | y :: l' => if String.leb x y then x :: l else y :: insert_sorted x l'
  end.

Definition sorted (links : gset string) : list string :=
  foldr insert_sorted [] (elements links).

(** What [__main__] prints once [crawl_website] has returned. *)
Definition report (a : Args.Namespace)
    (r : gset string * gset string * gset string * gset string)
    : list Msg :=
  let '(internal, external, mailtos, non_htmls) := r in
  let listing (what : string) (links : gset string) :=
    Found (size links) what :: List.map Line (sorted links) in
  (if Args.full_links a then listing "internal links" internal
   else listing "internal directories" (extract_directories internal))
  ++ (if Args.full_links a then listing "external links" external
      else listing "external directories" (extract_directories external))
  ++ (if Args.full_links a then listing "email links" mailtos else [])
  ++ (if Args.full_links a then listing "non-HTML links" non_htmls
       else []).

(** [__main__]: the crawl of [args.url] with [args.threads] workers,
    then the report; what is printed when the loop has ended. *)
Definition main (a : Args.Namespace) (es : list Event)
    : option (list Msg) :=
  match crawl_website a (Args.url a) (Args.threads a) es with
  | Some s =>
      if done s || bool_decide (pending s = ∅ ∧ to_visit s = ∅)
      then Some (stdout s ++ report a (returned s)) else None
  | None => None
  end.

(** ** Predicates and measures for the proofs *)

(** The command line [a] with another [-d]. *)
Definition with_depth (a : Args.Namespace) (d : Z) : Args.Namespace :=
  {| Args.url := Args.url a; Args.verbose := Args.verbose a;
     Args.threads := Args.threads a; Args.max := Args.max a;
     Args.depth := d; Args.full_links := Args.full_links a |}.

(** The fetch of [url] gives nothing to extract: the request fails,
    the status is outside [200, 400), or the content type is not HTML. *)
Definition nothing_to_extract (url : string) : Prop :=
  match requests_get url with
  | None => True
  | Some response =>
      ¬ (200 ≤ status_code response < 400)%Z
      ∨ PyStr.contains "html" (default "" (content_type response)) = false
  end.

(** Queued or pending URLs that are visited already. *)
Definition stale (s : State) : nat :=
  size (pending s ∩ visited s) + size (to_visit s ∩ visited s).

(** A bound on the turns the loop has left when [args.max] is set. *)
Definition budget (a : Args.Namespace) (s : State) : nat :=
  if done s then 0
  else 1 + 2 * (2 * (Z.to_nat (Args.max a) - size (visited s)) + stale s)
       + (if bool_decide (pending s = ∅) then 1 else 0).

(** The URLs a state may still hand to a worker. *)
Definition scheduled (s : State) : gset string :=
  to_visit s ∪ pending s.

(** [tag.get(attr)], with [attr] chosen as in the loop of
    [extract_links]. *)
Definition reference (tag : Tag) : option string :=
  tag_attrs tag
    !! (if bool_decide (tag_name tag ∈ ["a"; "link"]) then "href" else "src").

(** The test of [extract_links] for a reference that is not HTML. *)
Definition non_crawlable (link : string) : bool :=
  startswith_any ["SMS:"; "tel:"; "javascript:"; "data:"] link
  || PyStr.startswith "#" link.

(** A bound on the turns the loop has left on a site whose URLs all
    belong to [site]. *)
Definition site_budget (site : gset string) (s : State) : nat :=
  if done s then 0
  else 1 + 2 * (2 * size (site ∖ visited s) + stale s)
       + (if bool_decide (pending s = ∅) then 1 else 0).


(** [link] is a reference that [extract_links] reads on the page of
    [url]: the fetch succeeds with a status in [200, 400) and an HTML
    content type, and [link] is the non-empty reference of one of the
    tags the loop scans. *)
Definition found_on (url link : string) : Prop :=
  ∃ response tag,
    requests_get url = Some response
    ∧ (200 ≤ status_code response < 400)%Z
    ∧ PyStr.contains "html" (default "" (content_type response)) = true
    ∧ tag ∈ html response
    ∧ tag_name tag ∈ ["a"; "link"; "script"; "img"]
    ∧ reference tag = Some link
    ∧ link ≠ "".


(** The URLs the crawl can come to under the command line [a]: the
    seed, and every internal link of the page of such a URL that passes
    the depth test. *)
Inductive crawlable (a : Args.Namespace) (start_url : string)
    : string → Prop :=
| crawlable_seed : crawlable a start_url start_url
| crawlable_link url link :
    crawlable a start_url url →
    link ∈ internal (process_url a start_url url).2 →
    depth_ok a link = true →
    crawlable a start_url link.


(** ** The loops over sets, as set expressions *)

Lemma split_links_spec base_url links :
  split_links base_url links =
    (filter (λ link, get_hostname link = get_hostname base_url) links,
     filter (λ link, get_hostname link ≠ get_hostname base_url) links).
Proof.
  unfold split_links.
  apply (set_fold_ind_L (λ r X,
    r = (filter (λ link, get_hostname link = get_hostname base_url) X,
         filter (λ link, get_hostname link ≠ get_hostname base_url) X))).
  - f_equal; apply set_eq; set_solver.
  - intros x X [i e] Hx Hr. inversion Hr; subst; clear Hr.
    rewrite !filter_union_L, !filter_singleton_L; [|apply _..].
    destruct (String.eqb_spec (get_hostname x) (get_hostname base_url))
      as [Heq|Hne].
    + rewrite decide_True, decide_False by tauto.
      f_equal; set_solver.
    + rewrite decide_False, decide_True by tauto.
      f_equal; set_solver.
Qed.

Lemma elem_of_internal base_url links link :
  link ∈ (split_links base_url links).1 ↔
  link ∈ links ∧ get_hostname link = get_hostname base_url.
Proof. rewrite split_links_spec. simpl. rewrite elem_of_filter. tauto. Qed.

Lemma elem_of_external base_url links link :
  link ∈ (split_links base_url links).2 ↔
  link ∈ links ∧ get_hostname link ≠ get_hostname base_url.
Proof. rewrite split_links_spec. simpl. rewrite elem_of_filter. tauto. Qed.

Lemma queue_links_spec a vis tv links :
  queue_links a vis tv links =
    tv ∪ filter (λ link, (link ∉ vis) ∧ depth_ok a link = true) links.
Proof.
  unfold queue_links.
  apply (set_fold_ind_L (λ r X,
    r = tv ∪ filter (λ link, (link ∉ vis) ∧ depth_ok a link = true) X)).
  - apply set_eq; set_solver.
  - intros x X r Hx ->.
    apply set_eq; intros y.
    rewrite filter_union_L, filter_singleton_L; [|apply _..].
    case_bool_decide as Hq.
    + destruct (depth_ok a x) eqn:Hd.
      * rewrite decide_True by set_solver. set_solver.
      * rewrite decide_False by (intros [_ ?]; done). set_solver.
    + destruct (decide ((x ∉ vis) ∧ depth_ok a x = true)) as [[Hv Hd]|Hn];
        [|set_solver].
      assert (x ∈ tv ∪ filter
        (λ link, (link ∉ vis) ∧ depth_ok a link = true) X) as Hin.
      { destruct (decide (x ∈ tv ∪ filter
          (λ link, (link ∉ vis) ∧ depth_ok a link = true) X)); [done|].
        exfalso. apply Hq. done. }
      set_solver.
Qed.

Lemma elem_of_queue_links a vis tv links link :
  link ∈ queue_links a vis tv links ↔
  link ∈ tv ∨ (link ∈ links ∧ (link ∉ vis) ∧ depth_ok a link = true).
Proof.
  rewrite queue_links_spec, elem_of_union, elem_of_filter. tauto.
Qed.

Lemma extract_directories_spec links :
  extract_directories links = set_map directory_url links.
Proof.
  unfold extract_directories.
  apply (set_fold_ind_L (λ r X, r = set_map directory_url X)).
  - by rewrite set_map_empty.
  - intros x X r _ ->. by rewrite set_map_union_L, set_map_singleton_L.
Qed.

(** ** Runs are executions of the loop *)

Lemma turn_step a start_url s e s' :
  turn a start_url s e = Some s' → step a start_url s s'.
Proof.
  destruct e as [|u]; simpl; intros H.
  - destruct (done s) eqn:Hd; simpl in H; [done|].
    repeat case_bool_decide; simpl in H; try done.
    inversion H; subst. by constructor.
  - destruct (done s) eqn:Hd; simpl in H; [done|].
    case_bool_decide; simpl in H; try done.
    inversion H; subst. by constructor.
Qed.

Lemma run_rtc a start_url es : ∀ s s',
  run a start_url s es = Some s' → rtc (step a start_url) s s'.
Proof.
  induction es as [|e es IH]; simpl; intros s s' H.
  - inversion H; subst. apply rtc_refl.
  - destruct (turn a start_url s e) as [s1|] eqn:Ht; [|done].
    eapply rtc_l; [by eapply turn_step|by apply IH].
Qed.

Lemma crawl_website_reachable a start_url thread_count es s :
  crawl_website a start_url thread_count es = Some s →
  reachable a start_url s.
Proof.
  unfold crawl_website. destruct (thread_count <=? 0)%Z; [done|].
  apply run_rtc.
Qed.


(** ** What a task returns *)

Lemma process_url_current_url a start_url url :
  current_url (process_url a start_url url).2 = url.
Proof.
  unfold process_url.
  destruct (negb _); [done|].
  destruct (extract_links a url) as [out [[links ms] ns]].
  by destruct (split_links start_url links).
Qed.

Lemma process_url_internal a start_url url link :
  link ∈ internal (process_url a start_url url).2 →
  get_hostname link = get_hostname start_url.
Proof.
  unfold process_url.
  destruct (negb _); [simpl; set_solver|].
  destruct (extract_links a url) as [out [[links ms] ns]].
  destruct (split_links start_url links) as [i e] eqn:Hs. simpl.
  intros Hin. change i with (i, e).1 in Hin. rewrite <- Hs in Hin.
  by apply elem_of_internal in Hin as [_ ?].
Qed.

(** The task whose hostname test passes is the [try] branch. *)
Lemma process_url_fetches a start_url url :
  get_hostname url = get_hostname start_url →
  process_url a start_url url =
    (let '(out, (links, mailtos, non_htmls)) := extract_links a url in
     let '(internal, external) := split_links start_url links in
     (out, {| current_url := url; internal := internal;
              external := external; mailtos := mailtos;
              non_htmls := non_htmls |})).
Proof.
  intros Heq. unfold process_url.
  rewrite Heq, String.eqb_refl. done.
Qed.

(** The flags of the command line change what a task prints, not what
    it returns. *)
Lemma extract_links_quiet a1 a2 url :
  (extract_links a1 url).2 = (extract_links a2 url).2.
Proof.
  unfold extract_links.
  destruct (requests_get url) as [response|]; [|done].
  destruct (negb (_ && _)); [done|].
  destruct (negb (PyStr.contains _ _)); done.
Qed.

Lemma process_url_quiet a1 a2 start_url url :
  (process_url a1 start_url url).2 = (process_url a2 start_url url).2.
Proof.
  unfold process_url. destruct (negb _); [done|].
  pose proof (extract_links_quiet a1 a2 url) as Hq.
  destruct (extract_links a1 url) as [out1 [[l1 m1] n1]].
  destruct (extract_links a2 url) as [out2 [[l2 m2] n2]].
  simpl in Hq. inversion Hq; subst.
  by destruct (split_links start_url l2).
Qed.

(** ** The two branches of a completion *)

Lemma complete_stop a start_url s url :
  max_reached a ({[url]} ∪ visited s) = true →
  silent (complete a start_url s url) =
    {| visited := {[url]} ∪ visited s; to_visit := to_visit s;
       current_batch := current_batch s; pending := ∅;
       all_internal := all_internal s; all_external := all_external s;
       mailto_links := mailto_links s; non_html_links := non_html_links s;
       done := true; stdout := [] |}.
Proof.
  intros Hm. unfold complete.
  pose proof (process_url_current_url a start_url url) as Hu.
  destruct (process_url a start_url url) as [out r]. simpl in Hu.
  rewrite Hu, Hm. done.
Qed.

Lemma complete_commit a start_url s url :
  max_reached a ({[url]} ∪ visited s) = false →
  silent (complete a start_url s url) =
    let r := (process_url a start_url url).2 in
    {| visited := {[url]} ∪ visited s;
       to_visit :=
         queue_links a ({[url]} ∪ visited s) (to_visit s) (internal r);
       current_batch := current_batch s; pending := pending s ∖ {[url]};
       all_internal := all_internal s ∪ internal r;
       all_external := all_external s ∪ external r;
       mailto_links := mailto_links s ∪ mailtos r;
       non_html_links := non_html_links s ∪ non_htmls r;
       done := false; stdout := [] |}.
Proof.
  intros Hm. unfold complete.
  pose proof (process_url_current_url a start_url url) as Hu.
  destruct (process_url a start_url url) as [out r]. simpl in Hu.
  rewrite Hu, Hm. done.
Qed.

Lemma complete_visited a start_url s url :
  visited (complete a start_url s url) = {[url]} ∪ visited s.
Proof.
  change (visited (complete a start_url s url))
    with (visited (silent (complete a start_url s url))).
  destruct (max_reached a ({[url]} ∪ visited s)) eqn:Hm.
  - by rewrite complete_stop.
  - by rewrite complete_commit.
Qed.

Lemma complete_done a start_url s url :
  done (complete a start_url s url) =
    max_reached a ({[url]} ∪ visited s).
Proof.
  change (done (complete a start_url s url))
    with (done (silent (complete a start_url s url))).
  destruct (max_reached a ({[url]} ∪ visited s)) eqn:Hm.
  - by rewrite complete_stop.
  - by rewrite complete_commit.
Qed.

Lemma silent_fields s t :
  silent s = t →
  visited s = visited t ∧ to_visit s = to_visit t
  ∧ current_batch s = current_batch t ∧ pending s = pending t
  ∧ all_internal s = all_internal t ∧ all_external s = all_external t
  ∧ mailto_links s = mailto_links t
  ∧ non_html_links s = non_html_links t ∧ done s = done t.
Proof. intros <-. repeat split. Qed.

Ltac rewrite_fields F :=
  lazymatch type of F with
  | _ ∧ _ =>
      let F1 := fresh "F" in
      let F2 := fresh "F" in
      destruct F as [F1 F2]; rewrite ?F1; rewrite_fields F2
  | _ => rewrite ?F
  end.

(** The fields of [complete], in each of its two branches. *)
Ltac complete_fields a start_url s url Hm :=
  let F := fresh "F" in
  destruct (max_reached a ({[url]} ∪ visited s)) eqn:Hm;
  [pose proof (silent_fields _ _ (complete_stop a start_url s url Hm)) as F
  |pose proof (silent_fields _ _ (complete_commit a start_url s url Hm))
     as F];
  simpl in F; rewrite_fields F.

(** ** Invariants of the loop *)

Lemma max_reached_false a vis :
  (0 < Args.max a)%Z → max_reached a vis = false →
  (Z.of_nat (size vis) < Args.max a)%Z.
Proof.
  unfold max_reached. intros Hpos H.
  destruct (Z.eqb_spec (Args.max a) 0); [lia|]. simpl in H.
  by apply Z.leb_gt in H.
Qed.

Lemma max_reached_true a vis :
  (0 < Args.max a)%Z → max_reached a vis = true →
  (Args.max a ≤ Z.of_nat (size vis))%Z.
Proof.
  unfold max_reached. intros Hpos H.
  apply andb_true_iff in H as [_ H]. by apply Z.leb_le in H.
Qed.

Lemma size_visit (url : string) (vis : gset string) :
  size ({[url]} ∪ vis) ≤ S (size vis).
Proof.
  rewrite size_union_alt, size_singleton.
  assert (vis ∖ {[url]} ⊆ vis) as Hsub by set_solver.
  apply subseteq_size in Hsub. lia.
Qed.

Lemma reachable_ind a start_url (P : State → Prop) :
  P (init start_url) →
  (∀ s s', reachable a start_url s → step a start_url s s' → P s → P s') →
  ∀ s, reachable a start_url s → P s.
Proof. intros H0 Hs s Hr. eapply rtc_ind_r; eauto. Qed.

(** Induction on the turns that lead to [s]. *)
Ltac reach_induction s Hr :=
  pattern s; revert s Hr; apply reachable_ind; cbv beta.

(** Every URL a worker may still be given is internal. *)
Lemma scheduled_internal a start_url s :
  reachable a start_url s →
  ∀ url, url ∈ scheduled s ∪ current_batch s →
         get_hostname url = get_hostname start_url.
Proof.
  intros Hr. reach_induction s Hr; [|intros s s' Hrtc Hstep IH].
  - unfold scheduled, init; simpl. intros url Hin.
    assert (url = start_url) as -> by set_solver. done.
  - destruct Hstep as [s Hd Hp Ht|s u Hd Hu]; unfold scheduled in *.
    + simpl. intros url Hin. apply IH. set_solver.
    + intros url.
      complete_fields a start_url s u Hm; intros Hin.
      * apply IH. set_solver.
      * rewrite !elem_of_union, elem_of_queue_links in Hin.
        destruct Hin as [[[?|(Hi & _)]|?]|?];
          [apply IH; set_solver| |apply IH; set_solver..].
        by eapply process_url_internal.
Qed.

(** Apart from the seed, every URL ever queued passed the depth test. *)
Lemma scheduled_shallow a start_url s :
  reachable a start_url s →
  ∀ url, url ∈ scheduled s ∪ current_batch s →
         url = start_url ∨ depth_ok a url = true.
Proof.
  intros Hr. reach_induction s Hr; [|intros s s' Hrtc Hstep IH].
  - unfold scheduled, init; simpl. intros url Hin. left. set_solver.
  - destruct Hstep as [s Hd Hp Ht|s u Hd Hu]; unfold scheduled in *.
    + simpl. intros url Hin. apply IH. set_solver.
    + intros url.
      complete_fields a start_url s u Hm; intros Hin.
      * apply IH. set_solver.
      * rewrite !elem_of_union, elem_of_queue_links in Hin.
        destruct Hin as [[[?|(_ & _ & ?)]|?]|?];
          [apply IH; set_solver|by right|apply IH; set_solver..].
Qed.

(** With [args.max] set, the count of visited URLs stays below it
    until the loop stops, and is exactly it when the limit stops it. *)
Lemma visited_count a start_url s :
  (0 < Args.max a)%Z → reachable a start_url s →
  if done s then Z.of_nat (size (visited s)) = Args.max a
  else (Z.of_nat (size (visited s)) < Args.max a)%Z.
Proof.
  intros Hpos Hr. reach_induction s Hr; [|intros s s' Hrtc Hstep IH].
  - unfold init; cbn [done visited]. rewrite size_empty. lia.
  - destruct Hstep as [s Hd Hp Ht|s u Hd Hu].
    + simpl. by rewrite Hd in *.
    + rewrite Hd in IH. pose proof (size_visit u (visited s)) as Hsz.
      complete_fields a start_url s u Hm.
      * apply max_reached_true in Hm; [lia|done].
      * by apply max_reached_false in Hm.
Qed.

(** Once a batch has been taken there is a current batch. *)
Lemma batch_taken a start_url s :
  reachable a start_url s →
  s = init start_url ∨ current_batch s ≠ ∅.
Proof.
  intros Hr. reach_induction s Hr; [by left|intros s s' Hrtc Hstep IH].
  right. destruct Hstep as [s Hd Hp Ht|s u Hd Hu].
  - done.
  - assert (current_batch s ≠ ∅) as Hb.
    { destruct IH as [->|?]; [|done]. simpl in Hu. set_solver. }
    complete_fields a start_url s u Hm; done.
Qed.

(** The futures still pending belong to the current batch. *)
Lemma pending_in_batch a start_url s :
  reachable a start_url s → pending s ⊆ current_batch s.
Proof.
  intros Hr. reach_induction s Hr; [done|intros s s' Hrtc Hstep IH].
  destruct Hstep as [s Hd Hp Ht|s u Hd Hu]; [done|].
  complete_fields a start_url s u Hm; set_solver.
Qed.

(** What the membership test of the loop does give: a queued URL that is
    visited already was in flight, in the current batch, when it was
    queued. *)
Lemma stale_frontier_in_batch a start_url s :
  reachable a start_url s → to_visit s ∩ visited s ⊆ current_batch s.
Proof.
  intros Hr.
  reach_induction s Hr; [set_solver|intros s s' Hrtc Hstep IH].
  pose proof (pending_in_batch a start_url s Hrtc) as Hp.
  destruct Hstep as [s Hd Hpe Ht|s u Hd Hu]; [set_solver|].
  complete_fields a start_url s u Hm.
  - set_solver.
  - rewrite queue_links_spec.
    set (new := filter _ (internal _)).
    assert (new ## ({[u]} ∪ visited s)) as Hnew.
    { subst new. intros x Hx Hv.
      apply elem_of_filter in Hx as [[Hx _] _]. done. }
    clearbody new. set_solver.
Qed.

(** The loop has left exactly when no turn is possible. *)
Lemma finished_stuck a start_url s :
  finished s ↔ ¬ ∃ s', step a start_url s s'.
Proof.
  unfold finished. split.
  - intros Hf [s' Hstep]. destruct Hstep as [s Hd Hp Ht|s u Hd Hu].
    + destruct Hf as [?|[_ ?]]; congruence.
    + destruct Hf as [?|[Hp _]]; [congruence|]. rewrite Hp in Hu.
      set_solver.
  - intros Hstuck. destruct (done s) eqn:Hd; [by left|right].
    destruct (decide (pending s = ∅)) as [Hp|Hp].
    + split; [done|]. destruct (decide (to_visit s = ∅)); [done|].
      exfalso. apply Hstuck. eexists. by apply step_dispatch.
    + exfalso. apply set_choose_L in Hp as [u Hu].
      apply Hstuck. eexists. by apply (step_complete _ _ _ u).
Qed.


(** ** The loop runs out of turns when [args.max] is set *)

Lemma budget_dispatch a s :
  done s = false → pending s = ∅ → to_visit s ≠ ∅ →
  budget a (dispatch s) < budget a s.
Proof.
  intros Hd Hp Ht. unfold budget, stale, dispatch; simpl.
  rewrite Hd, Hp.
  rewrite (bool_decide_eq_true_2 (∅ = ∅)) by done.
  rewrite (bool_decide_eq_false_2 (to_visit s = ∅)) by done.
  assert ((∅ : gset string) ∩ visited s = ∅) as -> by set_solver.
  rewrite size_empty. lia.
Qed.

Lemma budget_complete a start_url s url :
  (0 < Args.max a)%Z → done s = false → url ∈ pending s →
  budget a (complete a start_url s url) < budget a s.
Proof.
  intros Hpos Hd Hu. unfold budget at 2. rewrite Hd.
  rewrite (bool_decide_eq_false_2 (pending s = ∅)) by set_solver.
  unfold budget, stale.
  complete_fields a start_url s url Hm; [lia|].
  apply max_reached_false in Hm; [|done].
  repeat match goal with
  | F : _ (complete _ _ _ _) = _ |- _ => clear F
  end.
  rewrite queue_links_spec.
  set (new := filter _ (internal _)).
  assert (new ## ({[url]} ∪ visited s)) as Hnew.
  { subst new. intros x Hx Hv.
    apply elem_of_filter in Hx as [[Hx _] _]. done. }
  clearbody new.
  set (V := visited s) in *. set (P := pending s) in *.
  set (T := to_visit s) in *. clearbody V P T.
  match goal with
  | |- context [bool_decide ?p] => generalize (bool_decide p)
  end.
  intros b. assert ((if b then 1 else 0) ≤ 1) by (destruct b; lia).
  destruct (decide (url ∈ V)) as [Hin|Hout].
  - (* a URL visited before: one stale entry less *)
    assert ({[url]} ∪ V = V) as Hsame by set_solver.
    rewrite Hsame in *.
    assert ((P ∖ {[url]}) ∩ V = (P ∩ V) ∖ {[url]}) as -> by set_solver.
    rewrite size_difference by set_solver.
    rewrite size_singleton.
    assert (size (P ∩ V) ≠ 0) by (apply size_non_empty_iff; set_solver).
    assert ((T ∪ new) ∩ V = T ∩ V) as -> by set_solver.
    lia.
  - (* a new URL: one more visited, at most one more stale entry *)
    assert (size ({[url]} ∪ V) = S (size V)) as Hsz
      by (rewrite size_union by set_solver; by rewrite size_singleton).
    rewrite Hsz in *.
    assert (size ((P ∖ {[url]}) ∩ ({[url]} ∪ V)) ≤ size (P ∩ V))
      by (apply subseteq_size; set_solver).
    assert (size ((T ∪ new) ∩ ({[url]} ∪ V)) ≤ S (size (T ∩ V)))
      by (etrans; [|apply (size_visit url)];
          apply subseteq_size; set_solver).
    lia.
Qed.

Lemma budget_step a start_url s s' :
  (0 < Args.max a)%Z → step a start_url s s' → budget a s' < budget a s.
Proof.
  intros Hpos [s0 Hd Hp Ht|s0 u Hd Hu].
  - by apply budget_dispatch.
  - by apply budget_complete.
Qed.

Lemma budget_nsteps a start_url n s s' :
  (0 < Args.max a)%Z → nsteps (step a start_url) n s s' →
  n + budget a s' ≤ budget a s.
Proof.
  intros Hpos Hn. induction Hn as [s|n s s1 s2 Hstep Hn IH]; [lia|].
  apply (budget_step a start_url) in Hstep; [lia|done].
Qed.

Lemma budget_init a start_url :
  budget a (init start_url) = 4 * Z.to_nat (Args.max a) + 2.
Proof.
  unfold budget, stale, init; cbn [done visited pending to_visit].
  rewrite (bool_decide_eq_true_2 (∅ = ∅)) by done.
  rewrite !(right_absorb_L ∅ (∩)), size_empty. lia.
Qed.


(** ** Failed fetches *)

Lemma extract_links_nothing a url :
  nothing_to_extract url → (extract_links a url).2 = no_links.
Proof.
  unfold nothing_to_extract, extract_links.
  destruct (requests_get url) as [response|]; [|done].
  intros [Hs|Hc].
  - destruct (Z.leb_spec 200 (status_code response));
      destruct (Z.ltb_spec (status_code response) 400); simpl;
      try done; lia.
  - destruct (negb _); [done|]. by rewrite Hc.
Qed.

Lemma split_links_empty base_url : split_links base_url ∅ = (∅, ∅).
Proof. unfold split_links. by rewrite set_fold_empty. Qed.

Lemma process_url_nothing a start_url url :
  nothing_to_extract url →
  (process_url a start_url url).2 =
    {| current_url := url; internal := ∅; external := ∅;
       mailtos := ∅; non_htmls := ∅ |}.
Proof.
  intros Hn. apply (extract_links_nothing a) in Hn.
  unfold process_url. destruct (negb _); [done|].
  destruct (extract_links a url) as [out [[links ms] ns]].
  simpl in Hn. inversion Hn; subst.
  by rewrite split_links_empty.
Qed.

Lemma queue_links_empty a vis tv : queue_links a vis tv ∅ = tv.
Proof. unfold queue_links. by rewrite set_fold_empty. Qed.

(** C8. A URL whose fetch fails in transport, or answers with a status
    outside [200, 400), or with a content type that is not HTML, gives a
    task result whose four sets are empty; its completion still marks
    the URL visited, leaves the frontier and the four accumulators as
    they were, and does not stop the crawl: the URL leaves the pending
    futures and the loop stops only if the count of visited URLs
    reaches [args.max]. *)
Theorem failed_fetch_is_absorbed a start_url s url :
  nothing_to_extract url →
  (process_url a start_url url).2 =
    {| current_url := url; internal := ∅; external := ∅;
       mailtos := ∅; non_htmls := ∅ |}
  ∧ visited (complete a start_url s url) = {[url]} ∪ visited s
  ∧ to_visit (complete a start_url s url) = to_visit s
  ∧ returned (complete a start_url s url) = returned s
  ∧ done (complete a start_url s url)
    = max_reached a ({[url]} ∪ visited s)
  ∧ (max_reached a ({[url]} ∪ visited s) = false →
     pending (complete a start_url s url) = pending s ∖ {[url]}).
Proof.
  intros Hn. pose proof (process_url_nothing a start_url url Hn) as Hr.
  split; [done|]. unfold returned.
  complete_fields a start_url s url Hm.
  - done.
  - rewrite Hr; simpl. rewrite queue_links_empty.
    by rewrite !(right_id_L ∅ (∪)).
Qed.

(** ** Only internal URLs are crawled *)

(** X19. Every URL of the frontier, of the current batch and of its
    pending futures has the value of [get_hostname] that the seed has:
    only links that [split_links] classed internal are queued.  So the
    task of such a URL never takes the branch of [process_url] that
    skips a URL of another hostname, the seed included: that branch is
    never run, and every task runs [extract_links]. *)
Theorem only_internal_urls_are_crawled a start_url s url :
  reachable a start_url s →
  url ∈ to_visit s ∪ pending s ∪ current_batch s →
  get_hostname url = get_hostname start_url
  ∧ process_url a start_url url =
      (let '(out, (links, mailtos, non_htmls)) := extract_links a url in
       let '(internal, external) := split_links start_url links in
       (out, {| current_url := url; internal := internal;
                external := external; mailtos := mailtos;
                non_htmls := non_htmls |})).
Proof.
  intros Hr Hin.
  assert (get_hostname url = get_hostname start_url) as Heq
    by (by eapply scheduled_internal).
  split; [done|]. by apply process_url_fetches.
Qed.

(** ** The depth limit *)

Lemma depth_ok_true a link :
  (0 < Args.depth a)%Z → depth_ok a link = true →
  (Z.of_nat (get_path_depth link) ≤ Args.depth a)%Z.
Proof.
  unfold depth_ok. intros Hpos H.
  apply orb_true_iff in H as [H|H].
  - apply Z.eqb_eq in H. lia.
  - by apply Z.leb_le in H.
Qed.

(** What a completion records does not depend on [args.depth]. *)
Lemma complete_returned_quiet a1 a2 start_url s url :
  Args.max a1 = Args.max a2 →
  returned (complete a1 start_url s url)
  = returned (complete a2 start_url s url).
Proof.
  intros Hmax. unfold returned.
  assert (max_reached a1 ({[url]} ∪ visited s)
          = max_reached a2 ({[url]} ∪ visited s)) as Hm
    by (unfold max_reached; by rewrite Hmax).
  destruct (max_reached a2 ({[url]} ∪ visited s)) eqn:Hm2.
  - pose proof (silent_fields _ _ (complete_stop a1 start_url s url Hm))
      as F1.
    pose proof (silent_fields _ _ (complete_stop a2 start_url s url Hm2))
      as F2.
    simpl in F1, F2. rewrite_fields F1. rewrite_fields F2. done.
  - pose proof (silent_fields _ _ (complete_commit a1 start_url s url Hm))
      as F1.
    pose proof (silent_fields _ _ (complete_commit a2 start_url s url Hm2))
      as F2.
    simpl in F1, F2. rewrite_fields F1. rewrite_fields F2.
    by rewrite (process_url_quiet a1 a2).
Qed.

(** C7 as the code has it. With [args.depth > 0], the completion of a
    crawled page adds to the frontier no link deeper than
    [args.depth], and no URL other than the seed is ever in the
    frontier or in a batch with a deeper path.  What the completion records does not depend on
    [args.depth]: when it commits its results (the count of visited
    URLs has not reached [args.max]), every internal and external link
    of the page is in the accumulators, whatever its depth. *)
Theorem depth_gates_queuing_not_recording a start_url s url :
  (0 < Args.depth a)%Z →
  reachable a start_url s → url ∈ pending s →
  (∀ link, link ∈ to_visit (complete a start_url s url) →
           link ∉ to_visit s →
           (Z.of_nat (get_path_depth link) ≤ Args.depth a)%Z)
  ∧ (∀ link, link ∈ to_visit s ∪ pending s ∪ current_batch s →
             link = start_url
             ∨ (Z.of_nat (get_path_depth link) ≤ Args.depth a)%Z)
  ∧ (max_reached a ({[url]} ∪ visited s) = false →
     internal (process_url a start_url url).2
       ⊆ all_internal (complete a start_url s url)
     ∧ external (process_url a start_url url).2
       ⊆ all_external (complete a start_url s url))
  ∧ (∀ d, returned (complete (with_depth a d) start_url s url)
          = returned (complete a start_url s url)).
Proof.
  intros Hpos Hr Hu. split; [|split; [|split]].
  - intros link.
    complete_fields a start_url s url Hm; [done|].
    rewrite elem_of_queue_links. intros [?|(_ & _ & Hd)] Hnew; [done|].
    by apply depth_ok_true.
  - intros link Hin.
    destruct (scheduled_shallow a start_url s Hr link Hin) as [?|Hd];
      [by left|right]. by apply depth_ok_true.
  - intros Hm.
    pose proof (silent_fields _ _ (complete_commit a start_url s url Hm))
      as F. simpl in F. rewrite_fields F.
    split; apply union_subseteq_r.
  - intros d. by apply complete_returned_quiet.
Qed.

(** ** The limit on visited URLs *)

(** C2 as the code has it. When [args.max > 0] and marking the URL of a
    completed task visited brings the count of visited URLs to
    [args.max], the loop stops: [done] is set, no future is left
    pending and no further turn is possible.  The results of the task
    that reached the limit are dropped: the frontier and the four
    accumulators are what they were before this completion. *)
Theorem max_stop_drops_trigger a start_url s url :
  (0 < Args.max a)%Z →
  (Args.max a ≤ Z.of_nat (size ({[url]} ∪ visited s)))%Z →
  visited (complete a start_url s url) = {[url]} ∪ visited s
  ∧ done (complete a start_url s url) = true
  ∧ pending (complete a start_url s url) = ∅
  ∧ (¬ ∃ s', step a start_url (complete a start_url s url) s')
  ∧ to_visit (complete a start_url s url) = to_visit s
  ∧ returned (complete a start_url s url) = returned s.
Proof.
  intros Hpos Hle.
  assert (max_reached a ({[url]} ∪ visited s) = true) as Hm.
  { unfold max_reached. apply andb_true_iff. split.
    - apply negb_true_iff, Z.eqb_neq. lia.
    - by apply Z.leb_le. }
  pose proof (silent_fields _ _ (complete_stop a start_url s url Hm)) as F.
  simpl in F. destruct F as (Fv & Ft & Fb & Fp & Fi & Fe & Fm & Fn & Fd).
  repeat split; try done.
  - apply finished_stuck. by left.
  - unfold returned. by rewrite Fi, Fe, Fm, Fn.
Qed.


(** ** Termination under [args.max] *)

Lemma step_or_finished a start_url s :
  finished s ∨ ∃ s', step a start_url s s'.
Proof.
  unfold finished. destruct (done s) eqn:Hd; [by left; left|].
  destruct (decide (pending s = ∅)) as [Hp|Hp].
  - destruct (decide (to_visit s = ∅)) as [Ht|Ht]; [by left; right|].
    right. eexists. by apply step_dispatch.
  - right. apply set_choose_L in Hp as [u Hu].
    eexists. by apply (step_complete _ _ _ u).
Qed.

(** From every state the loop can be run to its end. *)
Lemma crawl_reaches_finish a start_url s :
  (0 < Args.max a)%Z →
  ∃ s', rtc (step a start_url) s s' ∧ finished s'.
Proof.
  intros Hpos. remember (budget a s) as b eqn:Hb. revert s Hb.
  induction b as [b IH] using lt_wf_ind. intros s ->.
  destruct (step_or_finished a start_url s) as [Hf|[s1 Hstep]].
  - exists s. split; [apply rtc_refl|done].
  - pose proof (budget_step a start_url s s1 Hpos Hstep) as Hlt.
    destruct (IH _ Hlt s1 eq_refl) as (s' & Hrtc & Hf).
    exists s'. split; [|done]. by eapply rtc_l.
Qed.

Lemma run_nsteps a start_url es : ∀ s s',
  run a start_url s es = Some s' →
  nsteps (step a start_url) (length es) s s'.
Proof.
  induction es as [|e es IH]; simpl; intros s s' H.
  - inversion H; subst. constructor.
  - destruct (turn a start_url s e) as [s1|] eqn:Ht; [|done].
    eapply nsteps_l; [by eapply turn_step|by apply IH].
Qed.

(** C4 as the code has it. With [args.max = M > 0] every crawl
    terminates, whatever the pages link to: a run has at most
    [4 * M + 2] turns of the scheduler, and from each of its states the
    loop can be run to its end.  When the loop has ended, at most [M]
    URLs are visited, so fewer than [M] plus the width of the last
    batch, and exactly [M] when the limit ended it; a crawl that runs
    out of frontier first ends with fewer than [M]. *)
Theorem crawl_with_max_terminates a start_url n s :
  (0 < Args.max a)%Z →
  nsteps (step a start_url) n (init start_url) s →
  n ≤ 4 * Z.to_nat (Args.max a) + 2
  ∧ (∃ s', rtc (step a start_url) s s' ∧ finished s')
  ∧ (finished s →
     (Z.of_nat (size (visited s)) ≤ Args.max a)%Z
     ∧ (Z.of_nat (size (visited s))
        < Args.max a + Z.of_nat (size (current_batch s)))%Z
     ∧ (done s = true → Z.of_nat (size (visited s)) = Args.max a)
     ∧ (done s = false →
        to_visit s = ∅ ∧ (Z.of_nat (size (visited s)) < Args.max a)%Z)).
Proof.
  intros Hpos Hn. split; [|split].
  - pose proof (budget_nsteps a start_url n _ _ Hpos Hn) as Hb.
    rewrite budget_init in Hb. lia.
  - by apply crawl_reaches_finish.
  - intros Hf.
    assert (reachable a start_url s) as Hr by (by eapply rtc_nsteps_2).
    pose proof (visited_count a start_url s Hpos Hr) as Hc.
    assert (size (current_batch s) ≠ 0) as Hw.
    { apply size_non_empty_iff.
      destruct (batch_taken a start_url s Hr) as [->|Hb].
      - destruct Hf as [Hf|[_ Hf]]; simpl in Hf; [done|].
        exfalso. revert Hf. apply non_empty_singleton_L.
      - intros He. apply Hb. by apply leibniz_equiv. }
    destruct (done s) eqn:Hd.
    + split; [lia|]. split; [lia|]. split; [done|]. intros; done.
    + destruct Hf as [?|[_ Ht]]; [congruence|].
      split; [lia|]. split; [lia|]. split; [intros; done|].
      intros _. split; [done|lia].
Qed.

(** ** The flags that only print *)

Lemma queue_links_quiet a1 a2 vis tv links :
  Args.depth a1 = Args.depth a2 →
  queue_links a1 vis tv links = queue_links a2 vis tv links.
Proof.
  intros Hd. rewrite !queue_links_spec. f_equal.
  apply set_eq; intros x. rewrite !elem_of_filter.
  unfold depth_ok. by rewrite Hd.
Qed.

Lemma complete_quiet a1 a2 start_url s1 s2 url :
  Args.max a1 = Args.max a2 → Args.depth a1 = Args.depth a2 →
  silent s1 = silent s2 →
  silent (complete a1 start_url s1 url)
  = silent (complete a2 start_url s2 url).
Proof.
  intros Hmax Hdepth Hs.
  destruct (silent_fields s1 (silent s2) Hs)
    as (Fv & Ft & Fb & Fp & Fi & Fe & Fm & Fn & Fd). simpl in *.
  assert (max_reached a1 ({[url]} ∪ visited s1)
          = max_reached a2 ({[url]} ∪ visited s2)) as Hm
    by (unfold max_reached; by rewrite Hmax, Fv).
  destruct (max_reached a2 ({[url]} ∪ visited s2)) eqn:Hm2.
  - rewrite (complete_stop a1 _ _ _ Hm), (complete_stop a2 _ _ _ Hm2).
    by rewrite Fv, Ft, Fb, Fi, Fe, Fm, Fn.
  - rewrite (complete_commit a1 _ _ _ Hm), (complete_commit a2 _ _ _ Hm2).
    cbv zeta. rewrite (process_url_quiet a1 a2).
    rewrite (queue_links_quiet a1 a2) by done.
    by rewrite Fv, Ft, Fb, Fp, Fi, Fe, Fm, Fn.
Qed.

Lemma step_quiet a1 a2 start_url s1 s1' s2 :
  Args.max a1 = Args.max a2 → Args.depth a1 = Args.depth a2 →
  silent s1 = silent s2 → step a1 start_url s1 s1' →
  ∃ s2', step a2 start_url s2 s2' ∧ silent s1' = silent s2'.
Proof.
  intros Hmax Hdepth Hs Hstep.
  destruct (silent_fields s1 (silent s2) Hs)
    as (Fv & Ft & Fb & Fp & Fi & Fe & Fm & Fn & Fd). simpl in *.
  destruct Hstep as [s1 Hd Hp Hne|s1 u Hd Hu].
  - exists (dispatch s2). split.
    + apply step_dispatch; congruence.
    + unfold silent, dispatch; simpl. congruence.
  - exists (complete a2 start_url s2 u). split.
    + apply step_complete; congruence.
    + by apply complete_quiet.
Qed.

(** C10. Two command lines with the same [args.max] and [args.depth],
    whatever their [verbose] and [full_links] flags (and thread
    counts), crawl alike from the same seed against the same
    responses: every state one can reach, the other reaches too, up to
    the printed lines.  In particular the four sets [crawl_website]
    returns are the same, and the loop has ended in the one exactly
    when it has in the other. *)
Theorem flags_only_print a1 a2 start_url s1 :
  Args.max a1 = Args.max a2 → Args.depth a1 = Args.depth a2 →
  reachable a1 start_url s1 →
  ∃ s2, reachable a2 start_url s2
        ∧ silent s2 = silent s1
        ∧ returned s2 = returned s1
        ∧ (finished s1 ↔ finished s2).
Proof.
  intros Hmax Hdepth Hr.
  assert (∃ s2, reachable a2 start_url s2 ∧ silent s1 = silent s2)
    as (s2 & Hr2 & Hs).
  { reach_induction s1 Hr.
    - exists (init start_url). split; [apply rtc_refl|done].
    - intros s s' _ Hstep (s2 & Hr2 & Hs).
      destruct (step_quiet a1 a2 start_url s s' s2 Hmax Hdepth Hs Hstep)
        as (s2' & Hstep2 & Hs').
      exists s2'. split; [|done]. by eapply rtc_r. }
  exists s2.
  destruct (silent_fields s1 (silent s2) Hs)
    as (Fv & Ft & Fb & Fp & Fi & Fe & Fm & Fn & Fd). simpl in *.
  repeat split; try done.
  - unfold returned. congruence.
  - unfold finished. rewrite Fd, Fp, Ft. tauto.
  - unfold finished. rewrite Fd, Fp, Ft. tauto.
Qed.


(** ** Hostnames *)

Lemma get_hostname_no_host url :
  hostname (urlparse url) = None → get_hostname url = "".
Proof. unfold get_hostname. by intros ->. Qed.

Lemma get_hostname_unprefixed url h :
  hostname (urlparse url) = Some h → PyStr.startswith "www." h = false →
  get_hostname url = h.
Proof. unfold get_hostname. intros -> Hp. simpl. by rewrite Hp. Qed.

(** After the prefix [www.], [lstrip] goes on dropping [w] and [.]. *)
Lemma get_hostname_www url h :
  hostname (urlparse url) = Some ("www." +:+ h) →
  get_hostname url = PyStr.lstrip "www." h.
Proof.
  unfold get_hostname. intros ->. unfold String.app; simpl.
  by destruct h.
Qed.

(** ** References that are not crawled *)

Lemma scan_anchor url acc link :
  scan_tag url acc (anchor link) =
    let '(links, mailtos, non_htmls) := acc in
    if PyStr.is_empty link then acc
    else if startswith_any ["SMS:"; "tel:"; "javascript:"; "data:"] link
            || PyStr.startswith "#" link
    then (links, mailtos, {[link]} ∪ non_htmls)
    else if PyStr.startswith "mailto:" link
    then (links, {[link]} ∪ mailtos, non_htmls)
    else ({[urljoin url link]} ∪ links, mailtos, non_htmls).
Proof.
  destruct acc as [[links ms] ns].
  unfold scan_tag, anchor; cbn [tag_name tag_attrs].
  rewrite bool_decide_eq_true_2 by (apply list_elem_of_here).
  by rewrite lookup_singleton_eq.
Qed.

(** A reference with one of the prefixes the code tests is kept as it
    is in [non_html_links], and goes nowhere else. *)
Lemma scan_anchor_non_crawlable url links ms ns p rest :
  p ∈ ["SMS:"; "tel:"; "javascript:"; "data:"; "#"] →
  scan_tag url (links, ms, ns) (anchor (p +:+ rest))
  = (links, ms, {[(p +:+ rest)]} ∪ ns).
Proof.
  intros Hp. rewrite scan_anchor.
  assert (∀ s, String.prefix "" s = true) as Hpre by (by intros [|]).
  repeat (apply elem_of_cons in Hp as [->|Hp]);
    [..|by apply elem_of_nil in Hp];
    unfold startswith_any, PyStr.startswith, String.app; simpl;
    by rewrite Hpre.
Qed.

(** A reference that starts with lower-case [sms:] passes the test for
    [SMS:] and is resolved like a link. *)
Lemma scan_anchor_sms url links ms ns rest :
  scan_tag url (links, ms, ns) (anchor ("sms:" +:+ rest))
  = ({[urljoin url ("sms:" +:+ rest)]} ∪ links, ms, ns).
Proof. by rewrite scan_anchor. Qed.

(** ** Directories *)

Lemma before_last_absent c s :
  PyStr.before_last c s = None ↔ PyStr.char_in c s = false.
Proof.
  induction s as [|a s IH]; simpl; [done|].
  rewrite (Ascii.eqb_sym c a).
  destruct (PyStr.before_last c s) eqn:Hb.
  - split; [done|]. intros H. apply orb_false_iff in H as [_ H].
    apply IH in H. done.
  - destruct (Ascii.eqb a c); simpl; [done|]. apply IH.
Qed.

Lemma before_last_app c dir seg :
  PyStr.char_in c seg = false →
  PyStr.before_last c (dir +:+ String c seg) = Some dir.
Proof.
  intros Hseg. induction dir as [|a dir IH]; simpl.
  - apply before_last_absent in Hseg. rewrite Hseg.
    by rewrite Ascii.eqb_refl.
  - by rewrite IH.
Qed.

(** C6 as the code has it. [extract_directories] maps every link to
    the URL built from its scheme, its hostname and a directory path,
    and returns nothing else.  The directory path is the path of the
    link when that ends in [/]; otherwise it is the path cut after its
    last [/], or the path followed by [/] when it has none.  The port,
    the user, the query and the fragment of the link are not kept: a
    link whose path ends in [/] is returned unchanged when it is its
    scheme, [://], its hostname and its path, and nothing more. *)
Theorem extract_directories_rolls_up links link :
  link ∈ links →
  directory_url link ∈ extract_directories links
  ∧ (∀ d, d ∈ extract_directories links →
          ∃ l, l ∈ links ∧ d = directory_url l)
  ∧ (PyStr.endswith_char "/" (path (urlparse link)) = true →
     directory_url link
     = (scheme (urlparse link) +:+ "://"
        +:+ default "None" (hostname (urlparse link))
        +:+ path (urlparse link))
     ∧ (link = (scheme (urlparse link) +:+ "://"
                +:+ default "None" (hostname (urlparse link))
                +:+ path (urlparse link)) →
        directory_url link = link))
  ∧ (PyStr.endswith_char "/" (path (urlparse link)) = false →
     (∀ dir seg,
        path (urlparse link) = (dir +:+ "/" +:+ seg) →
        PyStr.char_in "/" seg = false →
        directory_url link
        = (scheme (urlparse link) +:+ "://"
           +:+ default "None" (hostname (urlparse link))
           +:+ dir +:+ "/"))
     ∧ (PyStr.char_in "/" (path (urlparse link)) = false →
        directory_url link
        = (scheme (urlparse link) +:+ "://"
           +:+ default "None" (hostname (urlparse link))
           +:+ path (urlparse link) +:+ "/"))).
Proof.
  intros Hin. rewrite extract_directories_spec.
  split; [by apply elem_of_map_2|].
  split; [intros d Hd; apply elem_of_map in Hd as (l & -> & Hl); eauto|].
  unfold directory_url. split.
  - intros ->. simpl. split; [done|]. by intros <-.
  - intros ->. simpl. split.
    + intros dir seg -> Hseg. unfold PyStr.rsplit1_head.
      change (dir +:+ "/" +:+ seg) with (dir +:+ String "/" seg).
      by rewrite (before_last_app "/" dir seg Hseg).
    + intros Hno. unfold PyStr.rsplit1_head.
      apply before_last_absent in Hno. by rewrite Hno.
Qed.


(** * Further properties of the program *)

(** ** Classification of links *)

Lemma elem_of_split_links base_url links link :
  link ∈ links ↔
  link ∈ (split_links base_url links).1
  ∨ link ∈ (split_links base_url links).2.
Proof.
  rewrite elem_of_internal, elem_of_external.
  destruct (decide (get_hostname link = get_hostname base_url)); tauto.
Qed.

(** X1. [split_links] partitions its input: every link is in exactly one
    of the two sets it returns, the internal links are those whose
    [get_hostname] is that of the base URL, the external links are the
    others. *)
Theorem split_links_partitions base_url links :
  (split_links base_url links).1 ∪ (split_links base_url links).2 = links
  ∧ (split_links base_url links).1 ## (split_links base_url links).2
  ∧ (∀ link, link ∈ (split_links base_url links).1 →
             get_hostname link = get_hostname base_url)
  ∧ (∀ link, link ∈ (split_links base_url links).2 →
             get_hostname link ≠ get_hostname base_url).
Proof.
  split; [|split; [|split]].
  - apply set_eq. intros link. rewrite elem_of_union.
    symmetry. apply elem_of_split_links.
  - intros link Hi He. apply elem_of_internal in Hi as [_ Hi].
    apply elem_of_external in He as [_ He]. done.
  - intros link Hi. by apply elem_of_internal in Hi as [_ Hi].
  - intros link He. by apply elem_of_external in He as [_ He].
Qed.

(** ** Hostnames, again *)

(** What [lstrip] returns does not start with a character of the set. *)
Lemma lstrip_head chars s :
  match PyStr.lstrip chars s with
  | EmptyString => True
  | String c _ => PyStr.char_in c chars = false
  end.
Proof.
  induction s as [|c s IH]; simpl; [done|].
  destruct (PyStr.char_in c chars) eqn:Hc; [done|]. simpl. done.
Qed.

Lemma get_hostname_not_www url :
  PyStr.startswith "www." (get_hostname url) = false.
Proof.
  unfold get_hostname.
  destruct (PyStr.startswith "www." (default "" (hostname (urlparse url))))
    eqn:Hw; [|exact Hw].
  pose proof (lstrip_head "www." (default "" (hostname (urlparse url))))
    as Hl.
  destruct (PyStr.lstrip "www." _) as [|c r]; [done|].
  unfold PyStr.startswith.
  change (String.prefix "www." (String c r))
    with (if ascii_dec "w" c then String.prefix "ww." r else false).
  destruct (ascii_dec "w" c) as [<-|]; [|done]. simpl in Hl. done.
Qed.

(** X2. The value [get_hostname] returns never starts with [www.], so
    normalising is idempotent: a URL whose hostname is the value
    returned for another URL gets that same value. *)
Theorem get_hostname_is_normal url url' :
  hostname (urlparse url') = Some (get_hostname url) →
  PyStr.startswith "www." (get_hostname url) = false
  ∧ get_hostname url' = get_hostname url.
Proof.
  intros Hh. split; [apply get_hostname_not_www|].
  unfold get_hostname at 1. rewrite Hh. simpl.
  by rewrite get_hostname_not_www.
Qed.

(** ** Path depth *)

Lemma split_not_nil c s : PyStr.split c s ≠ [].
Proof.
  destruct s as [|d s]; simpl; [done|].
  destruct (Ascii.eqb d c); [done|]. by destruct (PyStr.split c s).
Qed.

(** Splitting at a separator splits the list of segments. *)
Lemma split_app c s1 s2 :
  PyStr.split c (s1 +:+ String c s2) = PyStr.split c s1 ++ PyStr.split c s2.
Proof.
  induction s1 as [|d s1 IH]; unfold String.app in *; simpl.
  - by rewrite Ascii.eqb_refl.
  - rewrite IH. destruct (Ascii.eqb d c); [done|].
    pose proof (split_not_nil c s1) as Hn.
    by destruct (PyStr.split c s1).
Qed.

(** X3. The depth of a path is the sum of the depths of its two parts
    around a [/]: when the path of [url] is the path of [url1], a [/] and
    the path of [url2], [get_path_depth url] is the sum of the two other
    depths.  In particular a trailing [/] does not change the depth. *)
Theorem get_path_depth_joins url url1 url2 :
  path (urlparse url)
  = path (urlparse url1) +:+ "/" +:+ path (urlparse url2) →
  get_path_depth url = get_path_depth url1 + get_path_depth url2.
Proof.
  intros Hp. unfold get_path_depth. rewrite Hp.
  change (path (urlparse url1) +:+ "/" +:+ path (urlparse url2))
    with (path (urlparse url1) +:+ String "/" (path (urlparse url2))).
  by rewrite split_app, List.filter_app, length_app.
Qed.


(** ** What [extract_links] returns *)

Lemma scan_tag_reference url links ms ns tag :
  scan_tag url (links, ms, ns) tag =
    match reference tag with
    | None => (links, ms, ns)
    | Some link =>
        if PyStr.is_empty link then (links, ms, ns)
        else if non_crawlable link then (links, ms, {[link]} ∪ ns)
        else if PyStr.startswith "mailto:" link
        then (links, {[link]} ∪ ms, ns)
        else ({[urljoin url link]} ∪ links, ms, ns)
    end.
Proof. reflexivity. Qed.

Lemma is_empty_false link : PyStr.is_empty link = false ↔ link ≠ "".
Proof. by destruct link. Qed.

(** Case analysis on where an element of a result set comes from. *)
Ltac break_cases :=
  repeat match goal with
  | H : _ ∨ _ |- _ => destruct H as [H|H]
  | H : ∃ _, _ |- _ => destruct H as [? H]
  | H : _ ∧ _ |- _ => destruct H as [? H]
  | H : Some _ = Some _ |- _ => inversion H; subst; clear H
  | H : _ ∈ {[_]} |- _ => apply elem_of_singleton in H; subst
  | H : _ ∈ ∅ |- _ => by apply not_elem_of_empty in H
  | H : _ ∈ [] |- _ => by apply elem_of_nil in H
  end.

(** One turn of the loop adds the reference of the tag, if it has one
    that is not empty, to the set of its kind. *)
Lemma scan_tag_elem url links ms ns tag :
  let r := scan_tag url (links, ms, ns) tag in
  (∀ x, x ∈ r.1.1 ↔
        x ∈ links
        ∨ ∃ l, reference tag = Some l ∧ l ≠ "" ∧ non_crawlable l = false
               ∧ PyStr.startswith "mailto:" l = false ∧ x = urljoin url l)
  ∧ (∀ m, m ∈ r.1.2 ↔
          m ∈ ms
          ∨ (reference tag = Some m ∧ m ≠ "" ∧ non_crawlable m = false
             ∧ PyStr.startswith "mailto:" m = true))
  ∧ (∀ n, n ∈ r.2 ↔
          n ∈ ns
          ∨ (reference tag = Some n ∧ n ≠ "" ∧ non_crawlable n = true)).
Proof.
  cbv zeta. rewrite scan_tag_reference.
  destruct (reference tag) as [link|].
  { destruct (PyStr.is_empty link) eqn:He.
    { destruct link; [|done]. simpl.
      repeat split; intros; break_cases; try done; by left. }
    apply is_empty_false in He.
    destruct (non_crawlable link) eqn:Hn; [|
      destruct (PyStr.startswith "mailto:" link) eqn:Hm]; simpl;
      (split; [|split]); intros x;
      rewrite ?elem_of_union, ?elem_of_singleton;
      (split; intros H; break_cases; subst; try congruence;
       first [by left | by right | by (right; eauto 10)
             | by (left; eauto 10)]). }
  simpl. repeat split; intros; break_cases; try done; by left.
Qed.

Lemma fold_scan_elem url tags : ∀ links ms ns,
  let r := fold_left (scan_tag url) tags (links, ms, ns) in
  (∀ x, x ∈ r.1.1 ↔
        x ∈ links
        ∨ ∃ tag l, tag ∈ tags ∧ reference tag = Some l ∧ l ≠ ""
                   ∧ non_crawlable l = false
                   ∧ PyStr.startswith "mailto:" l = false
                   ∧ x = urljoin url l)
  ∧ (∀ m, m ∈ r.1.2 ↔
          m ∈ ms
          ∨ ∃ tag, tag ∈ tags ∧ reference tag = Some m ∧ m ≠ ""
                   ∧ non_crawlable m = false
                   ∧ PyStr.startswith "mailto:" m = true)
  ∧ (∀ n, n ∈ r.2 ↔
          n ∈ ns
          ∨ ∃ tag, tag ∈ tags ∧ reference tag = Some n ∧ n ≠ ""
                   ∧ non_crawlable n = true).
Proof.
  induction tags as [|tag tags IH]; intros links ms ns; cbv zeta.
  - simpl. repeat split; intros; break_cases; try done; by left.
  - cbn [fold_left].
    pose proof (scan_tag_elem url links ms ns tag) as Hs. cbv zeta in Hs.
    destruct (scan_tag url (links, ms, ns) tag) as [[links' ms'] ns'].
    simpl in Hs. destruct Hs as (Hl & Hm & Hn).
    specialize (IH links' ms' ns'). cbv zeta in IH.
    destruct IH as (IHl & IHm & IHn).
    split; [|split]; intros x.
    + rewrite IHl, Hl. setoid_rewrite elem_of_cons. naive_solver.
    + rewrite IHm, Hm. setoid_rewrite elem_of_cons. naive_solver.
    + rewrite IHn, Hn. setoid_rewrite elem_of_cons. naive_solver.
Qed.

Lemma elem_of_find_all names soup tag :
  tag ∈ find_all names soup ↔ tag ∈ soup ∧ tag_name tag ∈ names.
Proof.
  unfold find_all. split.
  - intros H. apply list_elem_of_In, List.filter_In in H as [H1 H2].
    apply bool_decide_eq_true in H2. split; [by apply list_elem_of_In|done].
  - intros [H1 H2]. apply list_elem_of_In, List.filter_In.
    split; [by apply list_elem_of_In|by apply bool_decide_eq_true].
Qed.

(** X4. The three sets [extract_links] returns hold exactly the
    references read on the page, each in the set of its kind: a
    reference that passes the non-HTML test is in [non_html_links] as it
    is written, one that starts with [mailto:] is in [mailto_links] as
    it is written, any other is in [links] resolved by [urljoin]; and
    the sets hold nothing else.  So no reference is lost or invented,
    and the order of the tags and their repetitions do not matter. *)
Theorem extract_links_exact a url links ms ns :
  (extract_links a url).2 = (links, ms, ns) →
  (∀ x, x ∈ links ↔
        ∃ l, found_on url l ∧ non_crawlable l = false
             ∧ PyStr.startswith "mailto:" l = false ∧ x = urljoin url l)
  ∧ (∀ m, m ∈ ms ↔
          found_on url m ∧ non_crawlable m = false
          ∧ PyStr.startswith "mailto:" m = true)
  ∧ (∀ n, n ∈ ns ↔ found_on url n ∧ non_crawlable n = true)
  ∧ ms ## ns.
Proof.
  intros He.
  assert ((∀ x, x ∈ links ↔
        ∃ l, found_on url l ∧ non_crawlable l = false
             ∧ PyStr.startswith "mailto:" l = false ∧ x = urljoin url l)
    ∧ (∀ m, m ∈ ms ↔
          found_on url m ∧ non_crawlable m = false
          ∧ PyStr.startswith "mailto:" m = true)
    ∧ (∀ n, n ∈ ns ↔ found_on url n ∧ non_crawlable n = true))
    as (Hl & Hm & Hn).
  2: { split; [exact Hl|]. split; [exact Hm|]. split; [exact Hn|].
       apply elem_of_disjoint.
       intros x Hx Hx'. apply Hm in Hx as (_ & Hx & _).
       apply Hn in Hx' as (_ & Hx'). congruence. }
  unfold extract_links in He. unfold found_on.
  destruct (requests_get url) as [response|] eqn:Hg.
  2: { inversion He; subst. repeat split; intros; set_solver. }
  destruct (Z.leb_spec 200 (status_code response));
    destruct (Z.ltb_spec (status_code response) 400); simpl in He;
    try (inversion He; subst;
         repeat split; intros;
         repeat match goal with
         | H : _ ∈ ∅ |- _ => by apply not_elem_of_empty in H
         | H : ∃ _, _ |- _ => destruct H as [? H]
         | H : _ ∧ _ |- _ => destruct H as [H ?]
         | H : Some _ = Some _ |- _ => inversion H; subst; clear H
         end; lia).
  destruct (PyStr.contains "html" (default "" (content_type response)))
    eqn:Hc; simpl in He.
  2: { inversion He; subst.
       repeat split; intros;
         repeat match goal with
         | H : _ ∈ ∅ |- _ => by apply not_elem_of_empty in H
         | H : ∃ _, _ |- _ => destruct H as [? H]
         | H : _ ∧ _ |- _ => destruct H as [H ?]
         | H : Some _ = Some _ |- _ => inversion H; subst; clear H
         end; congruence. }
  pose proof (fold_scan_elem url
    (find_all ["a"; "link"; "script"; "img"] (html response)) ∅ ∅ ∅) as Hf.
  cbv zeta in Hf. unfold no_links in He. rewrite He in Hf. simpl in Hf.
  destruct Hf as (Hl & Hm & Hn).
  split; [|split]; intros x.
  - rewrite Hl. setoid_rewrite elem_of_find_all. split.
    + intros [?|(tag & l & [? ?] & ? & ? & ? & ? & ?)]; [set_solver|].
      exists l. split; [|done]. exists response, tag. repeat split; try done; lia.
    + intros (l & (r & tag & Hr & ? & ? & ? & ? & ? & ?) & ? & ? & ?).
      inversion Hr; subst. right. exists tag, l. done.
  - rewrite Hm. setoid_rewrite elem_of_find_all. split.
    + intros [?|(tag & [? ?] & ? & ? & ? & ?)]; [set_solver|].
      split; [|done]. exists response, tag. repeat split; try done; lia.
    + intros ((r & tag & Hr & ? & ? & ? & ? & ? & ?) & ? & ?).
      inversion Hr; subst. right. exists tag. done.
  - rewrite Hn. setoid_rewrite elem_of_find_all. split.
    + intros [?|(tag & [? ?] & ? & ? & ?)]; [set_solver|].
      split; [|done]. exists response, tag. repeat split; try done; lia.
    + intros ((r & tag & Hr & ? & ? & ? & ? & ? & ?) & ?).
      inversion Hr; subst. right. exists tag. done.
Qed.


(** ** What the loop keeps *)

Lemma process_url_external a start_url url link :
  link ∈ external (process_url a start_url url).2 →
  get_hostname link ≠ get_hostname start_url.
Proof.
  unfold process_url.
  destruct (negb _); [simpl; set_solver|].
  destruct (extract_links a url) as [out [[links ms] ns]].
  destruct (split_links start_url links) as [i e] eqn:Hs. simpl.
  intros Hin. change e with (i, e).2 in Hin. rewrite <- Hs in Hin.
  by apply elem_of_external in Hin as [_ ?].
Qed.

Lemma step_grows a start_url s s' :
  step a start_url s s' →
  visited s ⊆ visited s' ∧ all_internal s ⊆ all_internal s'
  ∧ all_external s ⊆ all_external s' ∧ mailto_links s ⊆ mailto_links s'
  ∧ non_html_links s ⊆ non_html_links s'.
Proof.
  intros [s0 Hd Hp Ht|s0 u Hd Hu]; [done|].
  complete_fields a start_url s0 u Hm;
    repeat split; try done; try apply union_subseteq_l;
    apply union_subseteq_r.
Qed.

(** X5. The visited set and the four accumulators only grow: whatever
    turns the loop takes from a state, nothing that was visited or
    recorded is removed. *)
Theorem crawl_only_grows a start_url s s' :
  rtc (step a start_url) s s' →
  visited s ⊆ visited s' ∧ all_internal s ⊆ all_internal s'
  ∧ all_external s ⊆ all_external s' ∧ mailto_links s ⊆ mailto_links s'
  ∧ non_html_links s ⊆ non_html_links s'.
Proof.
  induction 1 as [s|s s1 s' Hstep Hrtc IH]; [done|].
  apply step_grows in Hstep.
  destruct Hstep as (H1 & H2 & H3 & H4 & H5).
  destruct IH as (I1 & I2 & I3 & I4 & I5).
  repeat split; etrans; eassumption.
Qed.

(** X6. In every state of the crawl the internal links recorded have the
    [get_hostname] of the seed and the external links recorded do not,
    so no link is reported both as internal and as external. *)
Theorem returned_sets_classified a start_url s :
  reachable a start_url s →
  (∀ link, link ∈ all_internal s →
           get_hostname link = get_hostname start_url)
  ∧ (∀ link, link ∈ all_external s →
             get_hostname link ≠ get_hostname start_url)
  ∧ all_internal s ## all_external s.
Proof.
  intros Hr.
  assert ((∀ link, link ∈ all_internal s →
                   get_hostname link = get_hostname start_url)
          ∧ (∀ link, link ∈ all_external s →
                     get_hostname link ≠ get_hostname start_url))
    as [Hi He].
  { reach_induction s Hr; [split; intros link H; set_solver|].
    intros s s' Hrtc Hstep [IHi IHe].
    destruct Hstep as [s Hd Hp Ht|s u Hd Hu]; [done|].
    complete_fields a start_url s u Hm; [done|].
    split; intros link [H|H]%elem_of_union.
    - by apply IHi.
    - by eapply process_url_internal.
    - by apply IHe.
    - by eapply process_url_external. }
  repeat split; try done.
  apply elem_of_disjoint. intros link H1 H2.
  apply (He link H2). by apply Hi.
Qed.

(** Every link in one of the four accumulators is in the set of the
    same kind that the task of some visited URL returned. *)
Lemma accumulators_sound a start_url s :
  reachable a start_url s →
  (∀ link, link ∈ all_internal s →
     ∃ url, url ∈ visited s
            ∧ link ∈ internal (process_url a start_url url).2)
  ∧ (∀ link, link ∈ all_external s →
       ∃ url, url ∈ visited s
              ∧ link ∈ external (process_url a start_url url).2)
  ∧ (∀ link, link ∈ mailto_links s →
       ∃ url, url ∈ visited s
              ∧ link ∈ mailtos (process_url a start_url url).2)
  ∧ (∀ link, link ∈ non_html_links s →
       ∃ url, url ∈ visited s
              ∧ link ∈ non_htmls (process_url a start_url url).2).
Proof.
  intros Hr. reach_induction s Hr.
  { repeat split; intros link H; by apply not_elem_of_empty in H. }
  intros s s' Hrtc Hstep (I1 & I2 & I3 & I4).
  destruct Hstep as [s Hd Hp Ht|s u Hd Hu]; [done|].
  complete_fields a start_url s u Hm.
  - repeat split; intros link H;
      [destruct (I1 link H) as (v & ? & ?)
      |destruct (I2 link H) as (v & ? & ?)
      |destruct (I3 link H) as (v & ? & ?)
      |destruct (I4 link H) as (v & ? & ?)];
      exists v; (split; [by apply elem_of_union_r|done]).
  - repeat split; intros link [H|H]%elem_of_union;
      try (exists u; split; [by apply elem_of_union_l, elem_of_singleton|done]);
      [destruct (I1 link H) as (v & ? & ?)
      |destruct (I2 link H) as (v & ? & ?)
      |destruct (I3 link H) as (v & ? & ?)
      |destruct (I4 link H) as (v & ? & ?)];
      exists v; (split; [by apply elem_of_union_r|done]).
Qed.

(** X8. The crawl goes nowhere else than the seed and the links it has
    recorded as internal: every URL visited, queued, pending or in the
    current batch is the seed or is in [all_internal]. *)
Theorem crawl_stays_within_reported a start_url s :
  reachable a start_url s →
  visited s ∪ to_visit s ∪ pending s ∪ current_batch s
  ⊆ {[start_url]} ∪ all_internal s.
Proof.
  intros Hr. reach_induction s Hr; [set_solver|].
  intros s s' Hrtc Hstep IH.
  destruct Hstep as [s Hd Hp Ht|s u Hd Hu]; [set_solver|].
  complete_fields a start_url s u Hm; [set_solver|].
  rewrite queue_links_spec.
  set (found := internal _) in *.
  assert (filter (λ link, (link ∉ {[u]} ∪ visited s)
                          ∧ depth_ok a link = true) found ⊆ found)
    as Hsub by (intros x Hx; by apply elem_of_filter in Hx as [_ ?]).
  set (new := filter _ found) in *. clearbody new found.
  set (V := visited s) in *. set (P := pending s) in *.
  set (T := to_visit s) in *. set (B := current_batch s) in *.
  set (I := all_internal s) in *. clearbody V P T B I.
  intros x Hx. rewrite !elem_of_union, elem_of_difference in Hx.
  assert (u ∈ {[start_url]} ∪ I) as Hin by (apply IH; set_solver).
  destruct Hx as [[[[Hx|Hx]|[Hx|Hx]]|[Hx _]]|Hx].
  - apply elem_of_singleton in Hx as ->. set_solver.
  - assert (x ∈ {[start_url]} ∪ I) by (apply IH; set_solver). set_solver.
  - assert (x ∈ {[start_url]} ∪ I) by (apply IH; set_solver). set_solver.
  - apply Hsub in Hx. set_solver.
  - assert (x ∈ {[start_url]} ∪ I) by (apply IH; set_solver). set_solver.
  - assert (x ∈ {[start_url]} ∪ I) by (apply IH; set_solver). set_solver.
Qed.

(** While the limit has not stopped the loop, every link recorded as
    internal that passes the depth test is visited, queued, or pending. *)
Lemma internal_links_covered a start_url s link :
  reachable a start_url s → done s = false →
  link ∈ all_internal s → depth_ok a link = true →
  link ∈ visited s ∪ to_visit s ∪ pending s.
Proof.
  intros Hr. revert link. reach_induction s Hr.
  { intros link _ H. by apply not_elem_of_empty in H. }
  intros s s' Hrtc Hstep IH link.
  destruct Hstep as [s Hd Hp Ht|s u Hd Hu].
  - simpl. intros Hd' Hin Hok. specialize (IH link Hd Hin Hok).
    rewrite Hp in IH. set_solver.
  - complete_fields a start_url s u Hm; [done|].
    intros _ [Hin|Hin]%elem_of_union Hok.
    + specialize (IH link Hd Hin Hok).
      rewrite !elem_of_union, elem_of_queue_links, elem_of_difference,
        !elem_of_singleton.
      destruct (decide (link = u)) as [->|Hne]; [by left; left; left|].
      rewrite !elem_of_union in IH.
      destruct IH as [[?|?]|?]; [by left; left; right|by left; right; left|].
      right. by split.
    + rewrite !elem_of_union, elem_of_queue_links.
      destruct (decide (link ∈ {[u]} ∪ visited s)) as [Hv|Hv].
      * left; left. by apply elem_of_union in Hv.
      * left; right; right. done.
Qed.

(** X9. While the limit has not stopped the loop, no internal link is
    forgotten: every link recorded as internal that passes the depth
    test is visited, queued, or pending; so when the loop ends because
    the frontier is empty, every such link has been visited. *)
Theorem internal_links_are_scheduled a start_url s link :
  reachable a start_url s → done s = false →
  link ∈ all_internal s → depth_ok a link = true →
  link ∈ visited s ∪ to_visit s ∪ pending s
  ∧ (finished s → link ∈ visited s).
Proof.
  intros Hr Hd Hin Hok.
  pose proof (internal_links_covered a start_url s link Hr Hd Hin Hok)
    as Hs.
  split; [done|]. intros [?|[Hp Ht]]; [congruence|].
  rewrite Hp, Ht in Hs. set_solver.
Qed.

(** X11. A URL is queued only while it is not visited: a URL of the
    frontier that is visited belongs to the current batch and its
    future has been yielded already, so it was in flight when it was
    queued.  Nothing visited before the current batch was taken is ever
    in the frontier. *)
Theorem stale_frontier_is_in_flight a start_url s url :
  reachable a start_url s → url ∈ to_visit s → url ∈ visited s →
  url ∈ current_batch s ∧ url ∉ pending s.
Proof.
  intros Hr Ht Hv.
  assert (to_visit s ∩ visited s ⊆ current_batch s ∖ pending s) as Hinv.
  { clear Ht Hv. reach_induction s Hr; [set_solver|].
    intros s s' Hrtc Hstep IH.
    pose proof (pending_in_batch a start_url s Hrtc) as Hp.
    destruct Hstep as [s Hd Hpe Hne|s u Hd Hu]; [set_solver|].
    complete_fields a start_url s u Hm.
    - set_solver.
    - rewrite queue_links_spec.
      set (new := filter _ (internal _)).
      assert (new ## ({[u]} ∪ visited s)) as Hnew.
      { subst new. intros x Hx Hv.
        apply elem_of_filter in Hx as [[Hx _] _]. done. }
      clearbody new.
      set (V := visited s) in *. set (P := pending s) in *.
      set (T := to_visit s) in *. set (B := current_batch s) in *.
      clearbody V P T B. set_solver. }
  assert (url ∈ current_batch s ∖ pending s) as Hin by set_solver.
  by apply elem_of_difference in Hin.
Qed.


(** ** Edge values of the limits *)

(** X12. With [args.max] equal to 1, or negative, the crawl returns
    nothing whatever the site holds: the first completion reaches the
    limit, so the four accumulators stay empty, at most one URL (the
    seed) is visited and nothing but the seed is ever queued. *)
Theorem max_at_most_one_returns_nothing a start_url s :
  Args.max a ≠ 0%Z → (Args.max a ≤ 1)%Z → reachable a start_url s →
  returned s = (∅, ∅, ∅, ∅)
  ∧ visited s ⊆ {[start_url]}
  ∧ to_visit s ∪ pending s ⊆ {[start_url]}
  ∧ (visited s ≠ ∅ → done s = true).
Proof.
  intros Hne Hle Hr. reach_induction s Hr.
  { repeat split; set_solver. }
  intros s s' Hrtc Hstep (IHr & IHv & IHs & IHd).
  destruct Hstep as [s Hd Hp Ht|s u Hd Hu].
  { unfold returned in *. simpl. repeat split; try done; set_solver. }
  assert (visited s = ∅) as Hv.
  { destruct (decide (visited s = ∅)); [done|]. specialize (IHd n).
    congruence. }
  assert (u = start_url) as -> by set_solver.
  assert (max_reached a ({[start_url]} ∪ visited s) = true) as Hm.
  { unfold max_reached. rewrite Hv, (right_id_L ∅ (∪)), size_singleton.
    apply andb_true_iff. split.
    - by apply negb_true_iff, Z.eqb_neq.
    - apply Z.leb_le. lia. }
  pose proof (silent_fields _ _ (complete_stop a start_url s _ Hm)) as F.
  simpl in F. destruct F as (Fv & Ft & Fb & Fp & Fi & Fe & Fm & Fn & Fd).
  unfold returned in *. rewrite Fv, Ft, Fp, Fi, Fe, Fm, Fn, Fd, Hv.
  repeat split; try done; set_solver.
Qed.

Lemma depth_ok_negative a link :
  (Args.depth a < 0)%Z → depth_ok a link = false.
Proof.
  intros Hd. unfold depth_ok. apply orb_false_iff. split.
  - apply Z.eqb_neq. lia.
  - apply Z.leb_gt. lia.
Qed.

(** X13. With a negative [args.depth] no link passes the depth test:
    the seed is the only URL ever queued, fetched or visited. *)
Theorem negative_depth_crawls_seed_only a start_url s :
  (Args.depth a < 0)%Z → reachable a start_url s →
  visited s ∪ to_visit s ∪ pending s ∪ current_batch s ⊆ {[start_url]}.
Proof.
  intros Hneg Hr. reach_induction s Hr; [set_solver|].
  intros s s' Hrtc Hstep IH.
  destruct Hstep as [s Hd Hp Ht|s u Hd Hu]; [set_solver|].
  assert (u ∈ ({[start_url]} : gset string)) as Hus by (apply IH; set_solver).
  complete_fields a start_url s u Hm; [set_solver|].
  rewrite queue_links_spec.
  assert (filter (λ link, (link ∉ {[u]} ∪ visited s)
                          ∧ depth_ok a link = true)
            (internal (process_url a start_url u).2) = ∅) as ->.
  { apply set_eq. intros x. rewrite elem_of_filter.
    rewrite (depth_ok_negative a x Hneg). set_solver. }
  set_solver.
Qed.

(** X14. The seed is the first URL visited: as soon as anything is
    visited, the seed is. *)
Theorem seed_is_visited_first a start_url s :
  reachable a start_url s → visited s ≠ ∅ → start_url ∈ visited s.
Proof.
  intros Hr.
  assert (start_url ∈ visited s
          ∨ (visited s = ∅ ∧ to_visit s ∪ pending s ⊆ {[start_url]}))
    as [?|[? _]]; [|done..].
  reach_induction s Hr; [right; set_solver|].
  intros s s' Hrtc Hstep IH.
  destruct Hstep as [s Hd Hp Ht|s u Hd Hu]; [set_solver|].
  left. rewrite complete_visited.
  destruct IH as [?|[_ Hs]]; [set_solver|].
  assert (u = start_url) as -> by set_solver. set_solver.
Qed.

(** ** Directories, again *)

Lemma size_set_map_le (f : string → string) (X : gset string) :
  size (set_map f X : gset string) ≤ size X.
Proof.
  induction X as [|x X Hx IH] using set_ind_L.
  - by rewrite set_map_empty, !size_empty.
  - rewrite set_map_union_L, set_map_singleton_L.
    rewrite (size_union {[x]} X) by set_solver.
    rewrite size_singleton.
    pose proof (size_visit (f x) (set_map f X)). lia.
Qed.

(** X15. [extract_directories] works link by link: the directories of
    a union are the union of the directories, there are never more
    directories than links, and there is none only when there is no
    link. *)
Theorem extract_directories_by_link links1 links2 :
  extract_directories (links1 ∪ links2)
  = extract_directories links1 ∪ extract_directories links2
  ∧ size (extract_directories links1) ≤ size links1
  ∧ (extract_directories links1 = ∅ ↔ links1 = ∅).
Proof.
  rewrite !extract_directories_spec. split; [|split].
  - apply set_map_union_L.
  - apply size_set_map_le.
  - split.
    + intros He. apply set_eq. intros x. split; [|set_solver].
      intros Hx. apply (elem_of_map_2 (D:=gset string) directory_url) in Hx.
      rewrite He in Hx. done.
    + intros ->. apply set_map_empty.
Qed.

(** ** What is printed *)






(** ** Termination on a finite site *)

(** On a site closed under internal links, a turn of the loop keeps the
    crawl inside the site and uses up some of the budget. *)
Lemma site_budget_step a start_url site s s' :
  (∀ url, url ∈ site → internal (process_url a start_url url).2 ⊆ site) →
  to_visit s ∪ pending s ∪ visited s ⊆ site →
  step a start_url s s' →
  to_visit s' ∪ pending s' ∪ visited s' ⊆ site
  ∧ site_budget site s' < site_budget site s.
Proof.
  intros Hclosed Hin Hstep. revert Hin.
  destruct Hstep as [s0 Hd Hp Ht|s0 u Hd Hu]; intros Hin.
  - split.
    { unfold dispatch; cbn [to_visit pending visited].
      intros x Hx. apply Hin. set_solver. }
    unfold site_budget, stale, dispatch; simpl. rewrite Hd, Hp.
    rewrite (bool_decide_eq_true_2 (∅ = ∅)) by done.
    rewrite (bool_decide_eq_false_2 (to_visit s0 = ∅)) by done.
    rewrite (left_absorb_L ∅ (∩)), size_empty. lia.
  - assert (u ∈ site) as Hus by set_solver.
    pose proof (Hclosed u Hus) as Hlinks.
    unfold site_budget at 2. rewrite Hd.
    rewrite (bool_decide_eq_false_2 (pending s0 = ∅)) by set_solver.
    unfold site_budget, stale.
    complete_fields a start_url s0 u Hm; [split; [set_solver|lia]|].
    repeat match goal with
    | F : _ (complete _ _ _ _) = _ |- _ => clear F
    end.
    rewrite queue_links_spec.
    set (found := internal _) in *.
    set (new := filter _ found).
    assert (new ## ({[u]} ∪ visited s0)) as Hnew.
    { subst new. intros x Hx Hv.
      apply elem_of_filter in Hx as [[Hx _] _]. done. }
    assert (new ⊆ site) as Hns.
    { subst new. intros x Hx. apply elem_of_filter in Hx as [_ Hx].
      by apply Hlinks. }
    clearbody new found.
    set (V := visited s0) in *. set (P := pending s0) in *.
    set (T := to_visit s0) in *. clearbody V P T.
    split; [set_solver|].
    match goal with
    | |- context [bool_decide ?p] => generalize (bool_decide p)
    end.
    intros b. assert ((if b then 1 else 0) ≤ 1) by (destruct b; lia).
    destruct (decide (u ∈ V)) as [Hv|Hv].
    + assert ({[u]} ∪ V = V) as Hsame by set_solver.
      rewrite Hsame in *.
      assert ((P ∖ {[u]}) ∩ V = (P ∩ V) ∖ {[u]}) as -> by set_solver.
      rewrite (size_difference (P ∩ V)) by set_solver.
      rewrite size_singleton.
      assert (size (P ∩ V) ≠ 0) by (apply size_non_empty_iff; set_solver).
      assert ((T ∪ new) ∩ V = T ∩ V) as -> by set_solver.
      lia.
    + assert (site ∖ ({[u]} ∪ V) = (site ∖ V) ∖ {[u]}) as -> by set_solver.
      rewrite (size_difference (site ∖ V)) by set_solver.
      rewrite size_singleton.
      assert (size (site ∖ V) ≠ 0) by (apply size_non_empty_iff; set_solver).
      assert (size ((P ∖ {[u]}) ∩ ({[u]} ∪ V)) ≤ size (P ∩ V))
        by (apply subseteq_size; set_solver).
      assert (size ((T ∪ new) ∩ ({[u]} ∪ V)) ≤ S (size (T ∩ V)))
        by (etrans; [|apply (size_visit u)];
            apply subseteq_size; set_solver).
      lia.
Qed.

Lemma site_budget_nsteps a start_url site n s s' :
  (∀ url, url ∈ site → internal (process_url a start_url url).2 ⊆ site) →
  to_visit s ∪ pending s ∪ visited s ⊆ site →
  nsteps (step a start_url) n s s' →
  n + site_budget site s' ≤ site_budget site s
  ∧ to_visit s' ∪ pending s' ∪ visited s' ⊆ site.
Proof.
  intros Hclosed Hin Hn.
  induction Hn as [s|n s s1 s2 Hstep Hn IH]; [split; [lia|done]|].
  destruct (site_budget_step a start_url site s s1 Hclosed Hin Hstep)
    as [Hin1 Hlt].
  destruct (IH Hin1) as [Hle Hin2]. split; [lia|done].
Qed.

Lemma site_crawl_reaches_finish a start_url site s :
  (∀ url, url ∈ site → internal (process_url a start_url url).2 ⊆ site) →
  to_visit s ∪ pending s ∪ visited s ⊆ site →
  ∃ s', rtc (step a start_url) s s' ∧ finished s'.
Proof.
  intros Hclosed. remember (site_budget site s) as b eqn:Hb. revert s Hb.
  induction b as [b IH] using lt_wf_ind. intros s -> Hin.
  destruct (step_or_finished a start_url s) as [Hf|[s1 Hstep]].
  - exists s. split; [apply rtc_refl|done].
  - destruct (site_budget_step a start_url site s s1 Hclosed Hin Hstep)
      as [Hin1 Hlt].
    destruct (IH _ Hlt s1 eq_refl Hin1) as (s' & Hrtc & Hf).
    exists s'. split; [|done]. by eapply rtc_l.
Qed.

(** X17. The crawl of a finite site terminates, with or without
    [args.max]: when the seed belongs to a finite set of URLs that
    holds the internal links of each of its pages, a run has at most
    four turns per URL of the set plus two, it visits URLs of the set
    only, and from each of its states the loop can be run to its end. *)
Theorem finite_site_crawl_terminates a start_url site n s :
  start_url ∈ site →
  (∀ url, url ∈ site → internal (process_url a start_url url).2 ⊆ site) →
  nsteps (step a start_url) n (init start_url) s →
  n ≤ 4 * size site + 2
  ∧ visited s ⊆ site
  ∧ ∃ s', rtc (step a start_url) s s' ∧ finished s'.
Proof.
  intros Hseed Hclosed Hn.
  assert (to_visit (init start_url) ∪ pending (init start_url)
          ∪ visited (init start_url) ⊆ site) as Hin by (simpl; set_solver).
  destruct (site_budget_nsteps a start_url site n _ _ Hclosed Hin Hn)
    as [Hle Hin'].
  split; [|split].
  - assert (site_budget site (init start_url) = 4 * size site + 2) as Hb.
    { unfold site_budget, stale, init;
        cbn [done visited pending to_visit].
      rewrite (bool_decide_eq_true_2 (∅ = ∅)) by done.
      replace (site ∖ ∅) with site by set_solver.
      replace ((∅ : gset string) ∩ ∅) with (∅ : gset string) by set_solver.
      replace ({[start_url]} ∩ (∅ : gset string)) with (∅ : gset string)
        by set_solver.
      rewrite size_empty. lia. }
    lia.
  - set_solver.
  - by eapply site_crawl_reaches_finish.
Qed.


(** ** The result of a crawl without limit *)

Lemma visited_results_recorded a start_url s :
  reachable a start_url s → done s = false →
  ∀ url, url ∈ visited s →
    internal (process_url a start_url url).2 ⊆ all_internal s
    ∧ external (process_url a start_url url).2 ⊆ all_external s
    ∧ mailtos (process_url a start_url url).2 ⊆ mailto_links s
    ∧ non_htmls (process_url a start_url url).2 ⊆ non_html_links s.
Proof.
  intros Hr. reach_induction s Hr.
  { intros _ url H. by apply not_elem_of_empty in H. }
  intros s s' Hrtc Hstep IH.
  destruct Hstep as [s Hd Hp Ht|s u Hd Hu]; [done|].
  complete_fields a start_url s u Hm; [done|].
  intros _ url [Hin|Hin]%elem_of_union.
  - apply elem_of_singleton in Hin as ->.
    repeat split; apply union_subseteq_r.
  - destruct (IH Hd url Hin) as (H1 & H2 & H3 & H4).
    repeat split; (etrans; [eassumption|apply union_subseteq_l]).
Qed.

(** X7. The crawl reports only what it found: every link in one of the
    four accumulators was returned, in the set of the same kind, by the
    task of some visited URL.  While the limit has not stopped the
    loop the converse holds too: the accumulators are exactly the
    results of the visited pages. *)
Theorem results_are_those_of_visited a start_url s link :
  reachable a start_url s →
  (link ∈ all_internal s →
     ∃ url, url ∈ visited s
            ∧ link ∈ internal (process_url a start_url url).2)
  ∧ (link ∈ all_external s →
       ∃ url, url ∈ visited s
              ∧ link ∈ external (process_url a start_url url).2)
  ∧ (link ∈ mailto_links s →
       ∃ url, url ∈ visited s
              ∧ link ∈ mailtos (process_url a start_url url).2)
  ∧ (link ∈ non_html_links s →
       ∃ url, url ∈ visited s
              ∧ link ∈ non_htmls (process_url a start_url url).2)
  ∧ (done s = false →
     ∀ url, url ∈ visited s →
       internal (process_url a start_url url).2 ⊆ all_internal s
       ∧ external (process_url a start_url url).2 ⊆ all_external s
       ∧ mailtos (process_url a start_url url).2 ⊆ mailto_links s
       ∧ non_htmls (process_url a start_url url).2 ⊆ non_html_links s).
Proof.
  intros Hr.
  destruct (accumulators_sound a start_url s Hr) as (P1 & P2 & P3 & P4).
  split; [apply P1|]. split; [apply P2|]. split; [apply P3|].
  split; [apply P4|]. intros Hd. by apply visited_results_recorded.
Qed.

Lemma crawl_is_crawlable a start_url s :
  reachable a start_url s →
  ∀ url, url ∈ visited s ∪ to_visit s ∪ pending s →
         crawlable a start_url url.
Proof.
  intros Hr. reach_induction s Hr.
  { intros url Hin. assert (url = start_url) as -> by set_solver.
    constructor. }
  intros s s' Hrtc Hstep IH.
  destruct Hstep as [s Hd Hp Ht|s u Hd Hu].
  { simpl. intros url Hin. apply IH. set_solver. }
  assert (crawlable a start_url u) as Hcu by (apply IH; set_solver).
  intros url. complete_fields a start_url s u Hm.
  - rewrite !elem_of_union, elem_of_singleton.
    intros [[[->|?]|?]|?]; [done|apply IH; set_solver..].
  - rewrite !elem_of_union, elem_of_queue_links, elem_of_singleton,
      elem_of_difference.
    intros [[[->|?]|[?|(Hl & _ & Hok)]]|[? _]];
      [done|apply IH; set_solver|apply IH; set_solver|
       |apply IH; set_solver].
    by apply (crawlable_link a start_url u).
Qed.

Lemma seed_is_scheduled a start_url s :
  reachable a start_url s → done s = false →
  start_url ∈ visited s ∪ to_visit s ∪ pending s.
Proof.
  intros Hr. reach_induction s Hr; [set_solver|].
  intros s s' Hrtc Hstep IH.
  destruct Hstep as [s Hd Hp Ht|s u Hd Hu].
  { simpl. intros _. specialize (IH Hd). set_solver. }
  specialize (IH Hd).
  complete_fields a start_url s u Hm; [done|]. intros _.
  rewrite !elem_of_union, elem_of_queue_links, elem_of_singleton,
    elem_of_difference, elem_of_singleton.
  rewrite !elem_of_union in IH.
  destruct (decide (start_url = u)) as [->|Hne]; [by left; left; left|].
  destruct IH as [[?|?]|?]; [by left; left; right|by left; right; left|].
  right. by split.
Qed.

(** X10. Without [-m] the result does not depend on the order in which
    the futures complete: when the loop has ended, the visited URLs are
    exactly the URLs that can be come to from the seed through internal
    links that pass the depth test, so two crawls that have ended have
    visited the same URLs and return the same four sets. *)
Theorem unlimited_crawl_is_order_independent a start_url s1 s2 :
  Args.max a = 0%Z →
  reachable a start_url s1 → finished s1 →
  reachable a start_url s2 → finished s2 →
  done s1 = false
  ∧ (∀ url, url ∈ visited s1 ↔ crawlable a start_url url)
  ∧ visited s1 = visited s2
  ∧ returned s1 = returned s2.
Proof.
  intros Hmax Hr1 Hf1 Hr2 Hf2.
  assert (∀ s, reachable a start_url s → finished s →
               done s = false
               ∧ ∀ url, url ∈ visited s ↔ crawlable a start_url url)
    as Hexact.
  { intros s Hr Hf.
    assert (done s = false) as Hd.
    { clear Hf. reach_induction s Hr; [done|].
      intros s0 s' Hrtc Hstep IH.
      destruct Hstep as [s0 Hd Hp Ht|s0 u Hd Hu]; [done|].
      rewrite complete_done. unfold max_reached. by rewrite Hmax. }
    split; [done|].
    destruct Hf as [?|[Hp Ht]]; [congruence|].
    intros url. split.
    - intros Hv. apply (crawl_is_crawlable a start_url s Hr). set_solver.
    - induction 1 as [|u l Hcu IH Hl Hok].
      + pose proof (seed_is_scheduled a start_url s Hr Hd) as Hs.
        rewrite Hp, Ht in Hs. set_solver.
      + destruct (visited_results_recorded a start_url s Hr Hd u IH)
          as (Hi & _).
        pose proof (internal_links_covered a start_url s l Hr Hd
                      (Hi l Hl) Hok) as Hs.
        rewrite Hp, Ht in Hs. set_solver. }
  destruct (Hexact s1 Hr1 Hf1) as [Hd1 Hv1].
  destruct (Hexact s2 Hr2 Hf2) as [Hd2 Hv2].
  assert (visited s1 = visited s2) as Hveq.
  { apply set_eq. intros url. by rewrite Hv1, Hv2. }
  split; [done|]. split; [done|]. split; [done|].
  unfold returned.
  assert (all_internal s1 = all_internal s2
          ∧ all_external s1 = all_external s2
          ∧ mailto_links s1 = mailto_links s2
          ∧ non_html_links s1 = non_html_links s2) as (-> & -> & -> & ->);
    [|done].
  destruct (accumulators_sound a start_url s1 Hr1) as (A1 & A2 & A3 & A4).
  destruct (accumulators_sound a start_url s2 Hr2) as (B1 & B2 & B3 & B4).
  pose proof (visited_results_recorded a start_url s1 Hr1 Hd1) as R1.
  pose proof (visited_results_recorded a start_url s2 Hr2 Hd2) as R2.
  repeat split; apply set_eq; intros link; split; intros Hl.
  - destruct (A1 link Hl) as (u & Hu & Hlu). rewrite Hveq in Hu.
    by apply (R2 u Hu).
  - destruct (B1 link Hl) as (u & Hu & Hlu). rewrite <- Hveq in Hu.
    by apply (R1 u Hu).
  - destruct (A2 link Hl) as (u & Hu & Hlu). rewrite Hveq in Hu.
    by apply (R2 u Hu).
  - destruct (B2 link Hl) as (u & Hu & Hlu). rewrite <- Hveq in Hu.
    by apply (R1 u Hu).
  - destruct (A3 link Hl) as (u & Hu & Hlu). rewrite Hveq in Hu.
    by apply (R2 u Hu).
  - destruct (B3 link Hl) as (u & Hu & Hlu). rewrite <- Hveq in Hu.
    by apply (R1 u Hu).
  - destruct (A4 link Hl) as (u & Hu & Hlu). rewrite Hveq in Hu.
    by apply (R2 u Hu).
  - destruct (B4 link Hl) as (u & Hu & Hlu). rewrite <- Hveq in Hu.
    by apply (R1 u Hu).
Qed.


(** ** The report *)

Lemma elem_of_insert_sorted x y l :
  y ∈ insert_sorted x l ↔ y = x ∨ y ∈ l.
Proof.
  induction l as [|z l IH]; simpl.
  - rewrite list_elem_of_singleton, elem_of_nil. tauto.
  - destruct (String.leb x z); rewrite !elem_of_cons, ?IH; tauto.
Qed.

Lemma length_insert_sorted x l :
  length (insert_sorted x l) = S (length l).
Proof.
  induction l as [|z l IH]; simpl; [done|].
  destruct (String.leb x z); simpl; by rewrite ?IH.
Qed.

(** [sorted] lists the links of the set, each once. *)
Lemma elem_of_sorted links x : x ∈ sorted links ↔ x ∈ links.
Proof.
  unfold sorted. rewrite <- (elem_of_elements links).
  induction (elements links) as [|y l IH]; simpl; [done|].
  rewrite elem_of_insert_sorted, elem_of_cons, IH. done.
Qed.

Lemma length_sorted links : length (sorted links) = size links.
Proof.
  unfold sorted, size, set_size. simpl.
  induction (elements links) as [|y l IH]; simpl; [done|].
  by rewrite length_insert_sorted, IH.
Qed.

Lemma elem_of_lines l xs : Line l ∈ List.map Line xs ↔ l ∈ xs.
Proof.
  rewrite !list_elem_of_In, in_map_iff. split.
  - intros (x & Hx & Hin). by inversion Hx; subst.
  - intros Hin. by exists l.
Qed.

(** X18. What the report lists.  With [-f] it lists the links of the
    four sets, each link once under the header of its set; without
    [-f] it lists the directories of the internal and of the external
    links only, and no mailto or non-HTML link is printed.  The report
    has one header and one line per link or directory listed. *)
Theorem report_lists_the_sets a i e m n l :
  (Line l ∈ report a (i, e, m, n) ↔
     if Args.full_links a then l ∈ i ∪ e ∪ m ∪ n
     else l ∈ extract_directories i ∪ extract_directories e)
  ∧ length (report a (i, e, m, n))
    = (if Args.full_links a
       then 4 + size i + size e + size m + size n
       else 2 + size (extract_directories i)
            + size (extract_directories e)).
Proof.
  unfold report. destruct (Args.full_links a); split.
  - rewrite !elem_of_app, !elem_of_cons, !elem_of_lines, !elem_of_sorted,
      !elem_of_union.
    split.
    + intros [[?|?]|[[?|?]|[[?|?]|[?|?]]]]; try done; tauto.
    + tauto.
  - rewrite !length_app. simpl.
    rewrite !length_map, !length_sorted. lia.
  - rewrite !elem_of_app, !elem_of_cons, !elem_of_lines, !elem_of_sorted,
      !elem_of_union, !elem_of_nil.
    split.
    + intros [[?|?]|[[?|?]|[?|?]]]; try done; tauto.
    + tauto.
  - rewrite !length_app. simpl.
    rewrite !length_map, !length_sorted. lia.
Qed.


End Sitemapper.

(** * Worked runs

    The runs below are against the models of [urlparse] and [urljoin]
    and the sites defined above. *)

Local Abbreviation seed := "https://example.com/".
Local Abbreviation about := "https://example.com/about".
Local Abbreviation page_a := "https://example.com/a".
Local Abbreviation page_b := "https://example.com/b".

(** C1 on the code. For [https://www.wikipedia.org/], whose hostname is
    [www.wikipedia.org], [get_hostname] returns [ikipedia.org]: [lstrip]
    drops the leading [w] of [wikipedia] with the prefix, where removing
    the literal prefix [www.] once gives [wikipedia.org]. *)
Theorem get_hostname_strips_characters :
  hostname (urlparse_model "https://www.wikipedia.org/")
  = Some "www.wikipedia.org"
  ∧ get_hostname urlparse_model "https://www.wikipedia.org/"
    = "ikipedia.org"
  ∧ get_hostname urlparse_model "https://www.wikipedia.org/"
    ≠ "wikipedia.org".
Proof. repeat split; compute_done. Qed.

(** C2 fails on the code. With [args.max = 1] the completion of the seed
    reaches the limit; the page has an internal link, an external link, a
    mailto link and an anchor, and none of them is in what the crawl
    returns, nor is the internal link queued. *)
Lemma max_stop_loses_trigger_results :
  reachable urlparse_model urljoin_model (serve mixed_site)
    (cli seed 1 0) seed (dispatch (init seed))
  ∧ seed ∈ pending (dispatch (init seed))
  ∧ (0 < Args.max (cli seed 1 0))%Z
  ∧ (Args.max (cli seed 1 0)
     ≤ Z.of_nat (size ({[seed]} ∪ visited (dispatch (init seed)))))%Z
  ∧ (process_url urlparse_model urljoin_model (serve mixed_site)
       (cli seed 1 0) seed seed).2
    = {| current_url := seed; internal := {[about]};
         external := {["https://other.com"]};
         mailtos := {["mailto:x@y.com"]}; non_htmls := {["#top"]} |}
  ∧ returned (complete urlparse_model urljoin_model (serve mixed_site)
                (cli seed 1 0) seed (dispatch (init seed)) seed)
    = (∅, ∅, ∅, ∅)
  ∧ to_visit (complete urlparse_model urljoin_model (serve mixed_site)
                (cli seed 1 0) seed (dispatch (init seed)) seed)
    = ∅.
Proof.
  split.
  - apply (crawl_website_reachable _ _ _ _ _ 1%Z [Dispatch]).
    vm_compute. reflexivity.
  - repeat split; try compute_done; vm_compute; reflexivity.
Qed.

(** The same completion, as the code has it. *)
Lemma max_stop_drops_trigger_witness :
  (0 < Args.max (cli seed 1 0))%Z
  ∧ (Args.max (cli seed 1 0)
     ≤ Z.of_nat (size ({[seed]} ∪ visited (dispatch (init seed)))))%Z
  ∧ (visited (complete urlparse_model urljoin_model (serve mixed_site)
                (cli seed 1 0) seed (dispatch (init seed)) seed)
     = {[seed]} ∪ visited (dispatch (init seed))
     ∧ done (complete urlparse_model urljoin_model (serve mixed_site)
               (cli seed 1 0) seed (dispatch (init seed)) seed) = true
     ∧ pending (complete urlparse_model urljoin_model (serve mixed_site)
                  (cli seed 1 0) seed (dispatch (init seed)) seed) = ∅
     ∧ (¬ ∃ s', step urlparse_model urljoin_model (serve mixed_site)
                  (cli seed 1 0) seed
                  (complete urlparse_model urljoin_model (serve mixed_site)
                     (cli seed 1 0) seed (dispatch (init seed)) seed) s')
     ∧ to_visit (complete urlparse_model urljoin_model (serve mixed_site)
                   (cli seed 1 0) seed (dispatch (init seed)) seed)
       = to_visit (dispatch (init seed))
     ∧ returned (complete urlparse_model urljoin_model (serve mixed_site)
                   (cli seed 1 0) seed (dispatch (init seed)) seed)
       = returned (dispatch (init seed))).
Proof.
  assert (0 < Args.max (cli seed 1 0))%Z as H1 by (simpl; lia).
  assert (Args.max (cli seed 1 0)
          ≤ Z.of_nat (size ({[seed]} ∪ visited (dispatch (init seed)))))%Z
    as H2 by compute_done.
  split; [exact H1|]. split; [exact H2|].
  exact (max_stop_drops_trigger urlparse_model urljoin_model
           (serve mixed_site) (cli seed 1 0) seed (dispatch (init seed))
           seed H1 H2).
Defined.

(** C3 on the code. A page whose only reference is [sms:+15550100]: the
    reference is not in the non-crawlable set, it is resolved against the
    URL of the page and returned with the links, and the crawl reports it
    among the external links. *)
Theorem sms_link_is_resolved :
  (extract_links urljoin_model (serve sms_site) (cli seed 0 0) seed).2
  = ({[urljoin_model seed "sms:+15550100"]}, ∅, ∅)
  ∧ urljoin_model seed "sms:+15550100" = "sms:+15550100"
  ∧ ∃ s, crawl_website urlparse_model urljoin_model (serve sms_site)
           (cli seed 0 0) seed 1 [Dispatch; Complete seed] = Some s
         ∧ finished s
         ∧ returned s = (∅, {["sms:+15550100"]}, ∅, ∅).
Proof.
  split; [vm_compute; reflexivity|]. split; [vm_compute; reflexivity|].
  eexists. split; [vm_compute; reflexivity|].
  split; [right; split; vm_compute; reflexivity|vm_compute; reflexivity].
Qed.


(** C4 fails on the code. With [args.max = 2] and a seed page without
    links the crawl ends after the seed, the frontier empty: one URL is
    visited, fewer than [args.max]. *)
Lemma leaf_crawl_ends_below_max :
  (0 < Args.max (cli seed 2 0))%Z
  ∧ reachable urlparse_model urljoin_model (serve leaf_site)
      (cli seed 2 0) seed
      (complete urlparse_model urljoin_model (serve leaf_site)
         (cli seed 2 0) seed (dispatch (init seed)) seed)
  ∧ finished (complete urlparse_model urljoin_model (serve leaf_site)
                (cli seed 2 0) seed (dispatch (init seed)) seed)
  ∧ size (visited (complete urlparse_model urljoin_model (serve leaf_site)
                     (cli seed 2 0) seed (dispatch (init seed)) seed)) = 1
  ∧ ¬ (Args.max (cli seed 2 0)
       ≤ Z.of_nat (size (visited
           (complete urlparse_model urljoin_model (serve leaf_site)
              (cli seed 2 0) seed (dispatch (init seed)) seed))))%Z.
Proof.
  split; [simpl; lia|]. split.
  - apply (crawl_website_reachable _ _ _ _ _ 1%Z [Dispatch; Complete seed]).
    vm_compute. reflexivity.
  - split; [right; split; compute_done|]. split; compute_done.
Qed.

(** The same crawl, as the code has it: two turns, and the loop has
    ended with one URL visited. *)
Lemma crawl_with_max_terminates_witness :
  (0 < Args.max (cli seed 2 0))%Z
  ∧ nsteps (step urlparse_model urljoin_model (serve leaf_site)
              (cli seed 2 0) seed) 2 (init seed)
      (complete urlparse_model urljoin_model (serve leaf_site)
         (cli seed 2 0) seed (dispatch (init seed)) seed)
  ∧ finished (complete urlparse_model urljoin_model (serve leaf_site)
                (cli seed 2 0) seed (dispatch (init seed)) seed)
  ∧ 2 ≤ 4 * Z.to_nat (Args.max (cli seed 2 0)) + 2
  ∧ (Z.of_nat (size (visited
        (complete urlparse_model urljoin_model (serve leaf_site)
           (cli seed 2 0) seed (dispatch (init seed)) seed)))
     ≤ Args.max (cli seed 2 0))%Z.
Proof.
  assert (0 < Args.max (cli seed 2 0))%Z as H1 by (simpl; lia).
  assert (nsteps (step urlparse_model urljoin_model (serve leaf_site)
                    (cli seed 2 0) seed) 2 (init seed)
            (complete urlparse_model urljoin_model (serve leaf_site)
               (cli seed 2 0) seed (dispatch (init seed)) seed)) as H2.
  { apply (run_nsteps _ _ _ _ _ [Dispatch; Complete seed]).
    vm_compute. reflexivity. }
  assert (finished (complete urlparse_model urljoin_model (serve leaf_site)
                      (cli seed 2 0) seed (dispatch (init seed)) seed))
    as H3 by (right; split; compute_done).
  split; [exact H1|]. split; [exact H2|]. split; [exact H3|].
  destruct (crawl_with_max_terminates urlparse_model urljoin_model
              (serve leaf_site) (cli seed 2 0) seed 2 _ H1 H2)
    as (Hn & _ & Hf).
  split; [exact Hn|]. exact (proj1 (Hf H3)).
Defined.

(** C5 on the code. The seed links to [/a] and [/b], which link to each
    other.  In the second batch, whichever of the two completes first
    queues the other, which is not visited yet and completes next.  The
    frontier then holds a visited URL, and the next batch fetches it a
    second time.  Both orders of completion are run. *)
Theorem frontier_meets_visited :
  (∃ s, crawl_website urlparse_model urljoin_model (serve ring_site)
          (cli seed 0 0) seed 1
          [Dispatch; Complete seed; Dispatch; Complete page_a;
           Complete page_b] = Some s
        ∧ page_b ∈ to_visit s ∧ page_b ∈ visited s
        ∧ page_b ∈ current_batch s
        ∧ step urlparse_model urljoin_model (serve ring_site)
            (cli seed 0 0) seed s (dispatch s)
        ∧ page_b ∈ current_batch (dispatch s))
  ∧ (∃ s, crawl_website urlparse_model urljoin_model (serve ring_site)
            (cli seed 0 0) seed 1
            [Dispatch; Complete seed; Dispatch; Complete page_b;
             Complete page_a] = Some s
          ∧ page_a ∈ to_visit s ∧ page_a ∈ visited s
          ∧ page_a ∈ current_batch s
          ∧ step urlparse_model urljoin_model (serve ring_site)
              (cli seed 0 0) seed s (dispatch s)
          ∧ page_a ∈ current_batch (dispatch s)).
Proof.
  split; (eexists; split; [vm_compute; reflexivity|];
          split; [compute_done|]; split; [compute_done|];
          split; [compute_done|]; split; [|compute_done];
          apply step_dispatch; [reflexivity|reflexivity|compute_done]).
Qed.

(** C6 fails on the code. The path of [https://x.com/a/?q=1] is [/a/],
    which ends in [/]; the directory returned for the link is
    [https://x.com/a/], not the link. *)
Lemma directory_drops_the_query :
  PyStr.endswith_char "/" (path (urlparse_model "https://x.com/a/?q=1"))
  = true
  ∧ extract_directories urlparse_model {["https://x.com/a/?q=1"]}
    = {["https://x.com/a/"]}
  ∧ "https://x.com/a/?q=1"
    ∉ extract_directories urlparse_model {["https://x.com/a/?q=1"]}.
Proof. repeat split; compute_done. Qed.

(** Two links of one directory roll up to it. *)
Lemma extract_directories_rolls_up_witness :
  "https://x.com/a/b"
    ∈ ({["https://x.com/a/b"; "https://x.com/a/c"]} : gset string)
  ∧ extract_directories urlparse_model
      {["https://x.com/a/b"; "https://x.com/a/c"]} = {["https://x.com/a/"]}
  ∧ directory_url urlparse_model "https://x.com/a/b"
    ∈ extract_directories urlparse_model
        {["https://x.com/a/b"; "https://x.com/a/c"]}.
Proof.
  assert ("https://x.com/a/b"
            ∈ ({["https://x.com/a/b"; "https://x.com/a/c"]} : gset string))
    as H1 by compute_done.
  split; [exact H1|]. split; [compute_done|].
  exact (proj1 (extract_directories_rolls_up urlparse_model
                  {["https://x.com/a/b"; "https://x.com/a/c"]}
                  "https://x.com/a/b" H1)).
Defined.


(** A page at depth 0 links to [/a/b/c] and [/a] under [args.depth = 1]:
    both links are recorded, only [/a] is queued. *)
Lemma depth_gates_queuing_not_recording_witness :
  (0 < Args.depth (cli seed 0 1))%Z
  ∧ reachable urlparse_model urljoin_model (serve deep_site)
      (cli seed 0 1) seed (dispatch (init seed))
  ∧ seed ∈ pending (dispatch (init seed))
  ∧ all_internal (complete urlparse_model urljoin_model (serve deep_site)
                    (cli seed 0 1) seed (dispatch (init seed)) seed)
    = {["https://example.com/a/b/c"; page_a]}
  ∧ to_visit (complete urlparse_model urljoin_model (serve deep_site)
                (cli seed 0 1) seed (dispatch (init seed)) seed)
    = {[page_a]}
  ∧ (∀ link,
       link ∈ to_visit (complete urlparse_model urljoin_model
                          (serve deep_site) (cli seed 0 1) seed
                          (dispatch (init seed)) seed) →
       link ∉ to_visit (dispatch (init seed)) →
       (Z.of_nat (get_path_depth urlparse_model link)
        ≤ Args.depth (cli seed 0 1))%Z).
Proof.
  assert (0 < Args.depth (cli seed 0 1))%Z as H1 by (simpl; lia).
  assert (reachable urlparse_model urljoin_model (serve deep_site)
            (cli seed 0 1) seed (dispatch (init seed))) as H2.
  { apply (crawl_website_reachable _ _ _ _ _ 1%Z [Dispatch]).
    vm_compute. reflexivity. }
  assert (seed ∈ pending (dispatch (init seed))) as H3 by compute_done.
  split; [exact H1|]. split; [exact H2|]. split; [exact H3|].
  split; [compute_done|]. split; [compute_done|].
  exact (proj1 (depth_gates_queuing_not_recording urlparse_model
                  urljoin_model (serve deep_site) (cli seed 0 1) seed
                  (dispatch (init seed)) seed H1 H2 H3)).
Defined.

(** The page [/about] answers 404: its task returns nothing, the URL is
    marked visited and what the seed gave stays as it was. *)
Lemma failed_fetch_is_absorbed_witness :
  nothing_to_extract (serve mixed_site) about
  ∧ (process_url urlparse_model urljoin_model (serve mixed_site)
       (cli seed 0 0) seed about).2
    = {| current_url := about; internal := ∅; external := ∅;
         mailtos := ∅; non_htmls := ∅ |}
  ∧ visited (complete urlparse_model urljoin_model (serve mixed_site)
               (cli seed 0 0) seed
               (dispatch (complete urlparse_model urljoin_model
                            (serve mixed_site) (cli seed 0 0) seed
                            (dispatch (init seed)) seed)) about)
    = {[about; seed]}.
Proof.
  assert (nothing_to_extract (serve mixed_site) about) as H1.
  { unfold nothing_to_extract.
    replace (serve mixed_site about) with (Some not_found)
      by (vm_compute; reflexivity).
    left. simpl. lia. }
  split; [exact H1|]. split.
  - exact (proj1 (failed_fetch_is_absorbed urlparse_model urljoin_model
                    (serve mixed_site) (cli seed 0 0) seed
                    (init seed) about H1)).
  - compute_done.
Defined.

(** After the seed of the ring site both links are queued, and both have
    the hostname of the seed. *)
Lemma only_internal_urls_are_crawled_witness :
  reachable urlparse_model urljoin_model (serve ring_site)
    (cli seed 0 0) seed
    (complete urlparse_model urljoin_model (serve ring_site)
       (cli seed 0 0) seed (dispatch (init seed)) seed)
  ∧ page_a
      ∈ to_visit (complete urlparse_model urljoin_model (serve ring_site)
                    (cli seed 0 0) seed (dispatch (init seed)) seed)
        ∪ pending (complete urlparse_model urljoin_model (serve ring_site)
                     (cli seed 0 0) seed (dispatch (init seed)) seed)
        ∪ current_batch (complete urlparse_model urljoin_model
                           (serve ring_site) (cli seed 0 0) seed
                           (dispatch (init seed)) seed)
  ∧ get_hostname urlparse_model page_a = get_hostname urlparse_model seed.
Proof.
  assert (reachable urlparse_model urljoin_model (serve ring_site)
            (cli seed 0 0) seed
            (complete urlparse_model urljoin_model (serve ring_site)
               (cli seed 0 0) seed (dispatch (init seed)) seed)) as H1.
  { apply (crawl_website_reachable _ _ _ _ _ 1%Z [Dispatch; Complete seed]).
    vm_compute. reflexivity. }
  assert (page_a
      ∈ to_visit (complete urlparse_model urljoin_model (serve ring_site)
                    (cli seed 0 0) seed (dispatch (init seed)) seed)
        ∪ pending (complete urlparse_model urljoin_model (serve ring_site)
                     (cli seed 0 0) seed (dispatch (init seed)) seed)
        ∪ current_batch (complete urlparse_model urljoin_model
                           (serve ring_site) (cli seed 0 0) seed
                           (dispatch (init seed)) seed)) as H2
    by compute_done.
  split; [exact H1|]. split; [exact H2|].
  exact (proj1 (only_internal_urls_are_crawled urlparse_model urljoin_model
                  (serve ring_site) (cli seed 0 0) seed _ page_a H1 H2)).
Defined.

(** The crawl of the mixed site with every flag off, and with [verbose]
    and [full_links] on. *)
Lemma flags_only_print_witness :
  Args.max (cli seed 0 0) = Args.max (cli_loud seed 0 0)
  ∧ Args.depth (cli seed 0 0) = Args.depth (cli_loud seed 0 0)
  ∧ reachable urlparse_model urljoin_model (serve mixed_site)
      (cli seed 0 0) seed (dispatch (init seed))
  ∧ ∃ s2, reachable urlparse_model urljoin_model (serve mixed_site)
            (cli_loud seed 0 0) seed s2
          ∧ silent s2 = silent (dispatch (init seed))
          ∧ returned s2 = returned (dispatch (init seed))
          ∧ (finished (dispatch (init seed)) ↔ finished s2).
Proof.
  assert (reachable urlparse_model urljoin_model (serve mixed_site)
            (cli seed 0 0) seed (dispatch (init seed))) as H3.
  { apply (crawl_website_reachable _ _ _ _ _ 1%Z [Dispatch]).
    vm_compute. reflexivity. }
  split; [reflexivity|]. split; [reflexivity|]. split; [exact H3|].
  exact (flags_only_print urlparse_model urljoin_model (serve mixed_site)
           (cli seed 0 0) (cli_loud seed 0 0) seed (dispatch (init seed))
           eq_refl eq_refl H3).
Defined.

(** The flags do change what is printed: the page [/about] answers 404,
    which only a verbose crawl reports. *)
Example verbose_prints_the_skip :
  (process_url urlparse_model urljoin_model (serve mixed_site)
     (cli seed 0 0) seed about).1 = []
  ∧ (process_url urlparse_model urljoin_model (serve mixed_site)
       (cli_loud seed 0 0) seed about).1 = [SkippedHTTP about 404].
Proof. split; vm_compute; reflexivity. Qed.

(** The page of the mixed site gives one link of each kind, and the
    missing page adds nothing. *)
Example one_link_of_each_kind :
  ∃ s, crawl_website urlparse_model urljoin_model (serve mixed_site)
         (cli seed 0 0) seed 1
         [Dispatch; Complete seed; Dispatch; Complete about] = Some s
       ∧ finished s
       ∧ returned s = ({[about]}, {["https://other.com"]},
                       {["mailto:x@y.com"]}, {["#top"]})
       ∧ visited s = {[seed; about]}.
Proof.
  eexists. split; [vm_compute; reflexivity|].
  split; [right; split; compute_done|]. split; compute_done.
Qed.

(** What the program prints for that crawl, without and with [-f]. *)
Example the_report :
  main urlparse_model urljoin_model (serve mixed_site) (cli seed 0 0)
    [Dispatch; Complete seed; Dispatch; Complete about]
  = Some [Crawled 1; Crawled 2;
          Found 1 "internal directories"; Line seed;
          Found 1 "external directories"; Line "https://other.com/"]
  ∧ main urlparse_model urljoin_model (serve mixed_site) (cli_loud seed 0 0)
      [Dispatch; Complete seed; Dispatch; Complete about]
    = Some [Crawled 1; SkippedHTTP about 404; Crawled 2;
            Found 1 "internal links"; Line about;
            Found 1 "external links"; Line "https://other.com";
            Found 1 "email links"; Line "mailto:x@y.com";
            Found 1 "non-HTML links"; Line "#top"].
Proof. split; vm_compute; reflexivity. Qed.


(** * Worked runs for the further properties *)

Local Abbreviation deep := "https://example.com/a/b/c".
Local Abbreviation crawl site a :=
  (crawl_website urlparse_model urljoin_model (serve site) a seed 1).
Local Abbreviation reach site a :=
  (reachable urlparse_model urljoin_model (serve site) a seed).
Local Abbreviation turns site a :=
  (step urlparse_model urljoin_model (serve site) a seed).
Local Abbreviation yield site a :=
  (complete urlparse_model urljoin_model (serve site) a seed).
Local Abbreviation task site a :=
  (process_url urlparse_model urljoin_model (serve site) a seed).

(** [www.example.com] and [example.com] are one host. *)
Lemma get_hostname_is_normal_witness :
  hostname (urlparse_model "https://example.com/x")
  = Some (get_hostname urlparse_model "https://www.example.com/")
  ∧ PyStr.startswith "www."
      (get_hostname urlparse_model "https://www.example.com/") = false
  ∧ get_hostname urlparse_model "https://example.com/x"
    = get_hostname urlparse_model "https://www.example.com/".
Proof.
  assert (hostname (urlparse_model "https://example.com/x")
          = Some (get_hostname urlparse_model "https://www.example.com/"))
    as H1 by compute_done.
  split; [exact H1|].
  exact (get_hostname_is_normal urlparse_model
           "https://www.example.com/" "https://example.com/x" H1).
Defined.

(** A trailing [/] adds no segment. *)
Lemma get_path_depth_joins_witness :
  path (urlparse_model "https://a.com/x/y/")
  = path (urlparse_model "https://a.com/x/y") +:+ "/"
    +:+ path (urlparse_model "https://a.com")
  ∧ get_path_depth urlparse_model "https://a.com/x/y/"
    = get_path_depth urlparse_model "https://a.com/x/y"
      + get_path_depth urlparse_model "https://a.com"
  ∧ get_path_depth urlparse_model "https://a.com/x/y/" = 2.
Proof.
  assert (path (urlparse_model "https://a.com/x/y/")
          = path (urlparse_model "https://a.com/x/y") +:+ "/"
            +:+ path (urlparse_model "https://a.com")) as H1
    by compute_done.
  split; [exact H1|]. split; [|compute_done].
  exact (get_path_depth_joins urlparse_model "https://a.com/x/y/"
           "https://a.com/x/y" "https://a.com" H1).
Defined.

(** The page of the mixed site. *)
Lemma extract_links_exact_witness :
  (extract_links urljoin_model (serve mixed_site) (cli seed 0 0) seed).2
  = ({[about; "https://other.com"]}, {["mailto:x@y.com"]}, {["#top"]})
  ∧ ({["mailto:x@y.com"]} : gset string) ## {["#top"]}
  ∧ (∀ n, n ∈ ({["#top"]} : gset string) ↔
          found_on (serve mixed_site) seed n ∧ non_crawlable n = true).
Proof.
  assert ((extract_links urljoin_model (serve mixed_site) (cli seed 0 0)
             seed).2
          = ({[about; "https://other.com"]}, {["mailto:x@y.com"]},
             {["#top"]})) as H1 by (vm_compute; reflexivity).
  split; [exact H1|].
  destruct (extract_links_exact urlparse_model urljoin_model
              (serve mixed_site) (cli seed 0 0) seed _ _ _ H1)
    as (_ & _ & Hn & Hd).
  split; [exact Hd|exact Hn].
Defined.

(** The completion of the seed of the mixed site. *)
Lemma crawl_only_grows_witness :
  rtc (turns mixed_site (cli seed 0 0)) (dispatch (init seed))
    (yield mixed_site (cli seed 0 0) (dispatch (init seed)) seed)
  ∧ visited (dispatch (init seed))
    ⊆ visited (yield mixed_site (cli seed 0 0) (dispatch (init seed)) seed)
  ∧ all_internal (dispatch (init seed))
    ⊆ all_internal
        (yield mixed_site (cli seed 0 0) (dispatch (init seed)) seed).
Proof.
  assert (rtc (turns mixed_site (cli seed 0 0)) (dispatch (init seed))
            (yield mixed_site (cli seed 0 0) (dispatch (init seed)) seed))
    as H1.
  { apply rtc_once, step_complete; [reflexivity|compute_done]. }
  split; [exact H1|].
  destruct (crawl_only_grows urlparse_model urljoin_model (serve mixed_site)
              (cli seed 0 0) seed _ _ H1) as (Hv & Hi & _).
  split; [exact Hv|exact Hi].
Defined.

Lemma returned_sets_classified_witness :
  reach mixed_site (cli seed 0 0)
    (yield mixed_site (cli seed 0 0) (dispatch (init seed)) seed)
  ∧ all_internal (yield mixed_site (cli seed 0 0) (dispatch (init seed)) seed)
    = {[about]}
  ∧ all_external (yield mixed_site (cli seed 0 0) (dispatch (init seed)) seed)
    = {["https://other.com"]}
  ∧ all_internal (yield mixed_site (cli seed 0 0) (dispatch (init seed)) seed)
    ## all_external
         (yield mixed_site (cli seed 0 0) (dispatch (init seed)) seed).
Proof.
  assert (reach mixed_site (cli seed 0 0)
            (yield mixed_site (cli seed 0 0) (dispatch (init seed)) seed))
    as H1.
  { apply (crawl_website_reachable _ _ _ _ _ 1%Z [Dispatch; Complete seed]).
    vm_compute. reflexivity. }
  split; [exact H1|]. split; [compute_done|]. split; [compute_done|].
  exact (proj2 (proj2 (returned_sets_classified urlparse_model urljoin_model
                         (serve mixed_site) (cli seed 0 0) seed _ H1))).
Defined.

Lemma crawl_stays_within_reported_witness :
  reach ring_site (cli seed 0 0)
    (yield ring_site (cli seed 0 0) (dispatch (init seed)) seed)
  ∧ to_visit (yield ring_site (cli seed 0 0) (dispatch (init seed)) seed)
    = {[page_a; page_b]}
  ∧ visited (yield ring_site (cli seed 0 0) (dispatch (init seed)) seed)
    ∪ to_visit (yield ring_site (cli seed 0 0) (dispatch (init seed)) seed)
    ∪ pending (yield ring_site (cli seed 0 0) (dispatch (init seed)) seed)
    ∪ current_batch
        (yield ring_site (cli seed 0 0) (dispatch (init seed)) seed)
    ⊆ {[seed]}
      ∪ all_internal
          (yield ring_site (cli seed 0 0) (dispatch (init seed)) seed).
Proof.
  assert (reach ring_site (cli seed 0 0)
            (yield ring_site (cli seed 0 0) (dispatch (init seed)) seed))
    as H1.
  { apply (crawl_website_reachable _ _ _ _ _ 1%Z [Dispatch; Complete seed]).
    vm_compute. reflexivity. }
  split; [exact H1|]. split; [compute_done|].
  exact (crawl_stays_within_reported urlparse_model urljoin_model
           (serve ring_site) (cli seed 0 0) seed _ H1).
Defined.

Lemma internal_links_are_scheduled_witness :
  reach mixed_site (cli seed 0 0)
    (yield mixed_site (cli seed 0 0) (dispatch (init seed)) seed)
  ∧ done (yield mixed_site (cli seed 0 0) (dispatch (init seed)) seed)
    = false
  ∧ about
    ∈ all_internal
        (yield mixed_site (cli seed 0 0) (dispatch (init seed)) seed)
  ∧ depth_ok urlparse_model (cli seed 0 0) about = true
  ∧ about
    ∈ visited (yield mixed_site (cli seed 0 0) (dispatch (init seed)) seed)
      ∪ to_visit
          (yield mixed_site (cli seed 0 0) (dispatch (init seed)) seed)
      ∪ pending
          (yield mixed_site (cli seed 0 0) (dispatch (init seed)) seed).
Proof.
  assert (reach mixed_site (cli seed 0 0)
            (yield mixed_site (cli seed 0 0) (dispatch (init seed)) seed))
    as H1.
  { apply (crawl_website_reachable _ _ _ _ _ 1%Z [Dispatch; Complete seed]).
    vm_compute. reflexivity. }
  assert (done (yield mixed_site (cli seed 0 0) (dispatch (init seed)) seed)
          = false) as H2 by compute_done.
  assert (about
          ∈ all_internal
              (yield mixed_site (cli seed 0 0) (dispatch (init seed)) seed))
    as H3 by compute_done.
  assert (depth_ok urlparse_model (cli seed 0 0) about = true) as H4
    by compute_done.
  split; [exact H1|]. split; [exact H2|]. split; [exact H3|].
  split; [exact H4|].
  exact (proj1 (internal_links_are_scheduled urlparse_model urljoin_model
                  (serve mixed_site) (cli seed 0 0) seed _ about
                  H1 H2 H3 H4)).
Defined.

(** The ring site after its second batch: [/b] is queued and visited,
    and its future has been yielded. *)
Lemma stale_frontier_is_in_flight_witness :
  reach ring_site (cli seed 0 0)
    (yield ring_site (cli seed 0 0)
       (yield ring_site (cli seed 0 0)
          (dispatch (yield ring_site (cli seed 0 0)
                       (dispatch (init seed)) seed)) page_a) page_b)
  ∧ page_b
    ∈ to_visit
        (yield ring_site (cli seed 0 0)
           (yield ring_site (cli seed 0 0)
              (dispatch (yield ring_site (cli seed 0 0)
                           (dispatch (init seed)) seed)) page_a) page_b)
  ∧ page_b
    ∈ visited
        (yield ring_site (cli seed 0 0)
           (yield ring_site (cli seed 0 0)
              (dispatch (yield ring_site (cli seed 0 0)
                           (dispatch (init seed)) seed)) page_a) page_b)
  ∧ page_b
    ∈ current_batch
        (yield ring_site (cli seed 0 0)
           (yield ring_site (cli seed 0 0)
              (dispatch (yield ring_site (cli seed 0 0)
                           (dispatch (init seed)) seed)) page_a) page_b)
  ∧ page_b
    ∉ pending
        (yield ring_site (cli seed 0 0)
           (yield ring_site (cli seed 0 0)
              (dispatch (yield ring_site (cli seed 0 0)
                           (dispatch (init seed)) seed)) page_a) page_b).
Proof.
  assert (reach ring_site (cli seed 0 0)
    (yield ring_site (cli seed 0 0)
       (yield ring_site (cli seed 0 0)
          (dispatch (yield ring_site (cli seed 0 0)
                       (dispatch (init seed)) seed)) page_a) page_b)) as H1.
  { apply (crawl_website_reachable _ _ _ _ _ 1%Z
             [Dispatch; Complete seed; Dispatch; Complete page_a;
              Complete page_b]).
    vm_compute. reflexivity. }
  assert (page_b
    ∈ to_visit
        (yield ring_site (cli seed 0 0)
           (yield ring_site (cli seed 0 0)
              (dispatch (yield ring_site (cli seed 0 0)
                           (dispatch (init seed)) seed)) page_a) page_b))
    as H2 by compute_done.
  assert (page_b
    ∈ visited
        (yield ring_site (cli seed 0 0)
           (yield ring_site (cli seed 0 0)
              (dispatch (yield ring_site (cli seed 0 0)
                           (dispatch (init seed)) seed)) page_a) page_b))
    as H3 by compute_done.
  split; [exact H1|]. split; [exact H2|]. split; [exact H3|].
  exact (stale_frontier_is_in_flight urlparse_model urljoin_model
           (serve ring_site) (cli seed 0 0) seed _ page_b H1 H2 H3).
Defined.

(** The mixed site under [-m -3]. *)
Lemma max_at_most_one_returns_nothing_witness :
  Args.max (cli seed (-3) 0) ≠ 0%Z
  ∧ (Args.max (cli seed (-3) 0) ≤ 1)%Z
  ∧ reach mixed_site (cli seed (-3) 0)
      (yield mixed_site (cli seed (-3) 0) (dispatch (init seed)) seed)
  ∧ finished (yield mixed_site (cli seed (-3) 0) (dispatch (init seed)) seed)
  ∧ returned (yield mixed_site (cli seed (-3) 0) (dispatch (init seed)) seed)
    = (∅, ∅, ∅, ∅).
Proof.
  assert (Args.max (cli seed (-3) 0) ≠ 0%Z) as H1 by (simpl; lia).
  assert (Args.max (cli seed (-3) 0) ≤ 1)%Z as H2 by (simpl; lia).
  assert (reach mixed_site (cli seed (-3) 0)
            (yield mixed_site (cli seed (-3) 0) (dispatch (init seed)) seed))
    as H3.
  { apply (crawl_website_reachable _ _ _ _ _ 1%Z [Dispatch; Complete seed]).
    vm_compute. reflexivity. }
  split; [exact H1|]. split; [exact H2|]. split; [exact H3|].
  split; [left; compute_done|].
  exact (proj1 (max_at_most_one_returns_nothing urlparse_model urljoin_model
                  (serve mixed_site) (cli seed (-3) 0) seed _ H1 H2 H3)).
Defined.

(** The deep site under [-d -1]: its two links are recorded, none is
    queued. *)
Lemma negative_depth_crawls_seed_only_witness :
  (Args.depth (cli seed 0 (-1)) < 0)%Z
  ∧ reach deep_site (cli seed 0 (-1))
      (yield deep_site (cli seed 0 (-1)) (dispatch (init seed)) seed)
  ∧ all_internal
      (yield deep_site (cli seed 0 (-1)) (dispatch (init seed)) seed)
    = {[deep; page_a]}
  ∧ finished (yield deep_site (cli seed 0 (-1)) (dispatch (init seed)) seed)
  ∧ visited (yield deep_site (cli seed 0 (-1)) (dispatch (init seed)) seed)
    ∪ to_visit (yield deep_site (cli seed 0 (-1)) (dispatch (init seed)) seed)
    ∪ pending (yield deep_site (cli seed 0 (-1)) (dispatch (init seed)) seed)
    ∪ current_batch
        (yield deep_site (cli seed 0 (-1)) (dispatch (init seed)) seed)
    ⊆ {[seed]}.
Proof.
  assert (Args.depth (cli seed 0 (-1)) < 0)%Z as H1 by (simpl; lia).
  assert (reach deep_site (cli seed 0 (-1))
            (yield deep_site (cli seed 0 (-1)) (dispatch (init seed)) seed))
    as H2.
  { apply (crawl_website_reachable _ _ _ _ _ 1%Z [Dispatch; Complete seed]).
    vm_compute. reflexivity. }
  split; [exact H1|]. split; [exact H2|]. split; [compute_done|].
  split; [right; split; compute_done|].
  exact (negative_depth_crawls_seed_only urlparse_model urljoin_model
           (serve deep_site) (cli seed 0 (-1)) seed _ H1 H2).
Defined.

Lemma seed_is_visited_first_witness :
  reach ring_site (cli seed 0 0)
    (yield ring_site (cli seed 0 0) (dispatch (init seed)) seed)
  ∧ visited (yield ring_site (cli seed 0 0) (dispatch (init seed)) seed) ≠ ∅
  ∧ seed
    ∈ visited (yield ring_site (cli seed 0 0) (dispatch (init seed)) seed).
Proof.
  assert (reach ring_site (cli seed 0 0)
            (yield ring_site (cli seed 0 0) (dispatch (init seed)) seed))
    as H1.
  { apply (crawl_website_reachable _ _ _ _ _ 1%Z [Dispatch; Complete seed]).
    vm_compute. reflexivity. }
  assert (visited (yield ring_site (cli seed 0 0) (dispatch (init seed)) seed)
          ≠ ∅) as H2 by compute_done.
  split; [exact H1|]. split; [exact H2|].
  exact (seed_is_visited_first urlparse_model urljoin_model
           (serve ring_site) (cli seed 0 0) seed _ H1 H2).
Defined.


(** The ring site has three URLs: its crawl, seven turns long with the
    second fetch of [/b], is within the bound of fourteen. *)
Lemma finite_site_crawl_terminates_witness :
  seed ∈ ({[seed; page_a; page_b]} : gset string)
  ∧ (∀ url, url ∈ ({[seed; page_a; page_b]} : gset string) →
            internal (task ring_site (cli seed 0 0) url).2
            ⊆ {[seed; page_a; page_b]})
  ∧ nsteps (turns ring_site (cli seed 0 0)) 7 (init seed)
      (yield ring_site (cli seed 0 0)
         (dispatch
            (yield ring_site (cli seed 0 0)
               (yield ring_site (cli seed 0 0)
                  (dispatch (yield ring_site (cli seed 0 0)
                               (dispatch (init seed)) seed)) page_a) page_b))
         page_b)
  ∧ finished
      (yield ring_site (cli seed 0 0)
         (dispatch
            (yield ring_site (cli seed 0 0)
               (yield ring_site (cli seed 0 0)
                  (dispatch (yield ring_site (cli seed 0 0)
                               (dispatch (init seed)) seed)) page_a) page_b))
         page_b)
  ∧ 7 ≤ 4 * size ({[seed; page_a; page_b]} : gset string) + 2.
Proof.
  assert (seed ∈ ({[seed; page_a; page_b]} : gset string)) as H1
    by compute_done.
  assert (∀ url, url ∈ ({[seed; page_a; page_b]} : gset string) →
            internal (task ring_site (cli seed 0 0) url).2
            ⊆ {[seed; page_a; page_b]}) as H2.
  { intros url Hin. rewrite !elem_of_union, !elem_of_singleton in Hin.
    destruct Hin as [[->| ->]| ->]; compute_done. }
  assert (nsteps (turns ring_site (cli seed 0 0)) 7 (init seed)
      (yield ring_site (cli seed 0 0)
         (dispatch
            (yield ring_site (cli seed 0 0)
               (yield ring_site (cli seed 0 0)
                  (dispatch (yield ring_site (cli seed 0 0)
                               (dispatch (init seed)) seed)) page_a) page_b))
         page_b)) as H3.
  { apply (run_nsteps _ _ _ _ _
             [Dispatch; Complete seed; Dispatch; Complete page_a;
              Complete page_b; Dispatch; Complete page_b]).
    vm_compute. reflexivity. }
  split; [exact H1|]. split; [exact H2|]. split; [exact H3|].
  split; [right; split; compute_done|].
  exact (proj1 (finite_site_crawl_terminates urlparse_model urljoin_model
                  (serve ring_site) (cli seed 0 0) seed _ 7 _ H1 H2 H3)).
Defined.


(** After the page of the mixed site: its mailto link is recorded, and
    comes from the seed. *)
Lemma results_are_those_of_visited_witness :
  reach mixed_site (cli seed 0 0)
    (yield mixed_site (cli seed 0 0) (dispatch (init seed)) seed)
  ∧ "mailto:x@y.com"
    ∈ mailto_links
        (yield mixed_site (cli seed 0 0) (dispatch (init seed)) seed)
  ∧ ("mailto:x@y.com"
     ∈ mailto_links
         (yield mixed_site (cli seed 0 0) (dispatch (init seed)) seed) →
     ∃ url,
       url ∈ visited
               (yield mixed_site (cli seed 0 0) (dispatch (init seed)) seed)
       ∧ "mailto:x@y.com" ∈ mailtos (task mixed_site (cli seed 0 0) url).2).
Proof.
  assert (reach mixed_site (cli seed 0 0)
            (yield mixed_site (cli seed 0 0) (dispatch (init seed)) seed))
    as H1.
  { apply (crawl_website_reachable _ _ _ _ _ 1%Z [Dispatch; Complete seed]).
    vm_compute. reflexivity. }
  split; [exact H1|]. split; [compute_done|].
  exact (proj1 (proj2 (proj2 (results_are_those_of_visited urlparse_model
                                urljoin_model (serve mixed_site)
                                (cli seed 0 0) seed _ "mailto:x@y.com"
                                H1)))).
Defined.

(** The two orders of the second batch of the ring site end with the
    same visited URLs and the same result. *)
Lemma unlimited_crawl_is_order_independent_witness :
  Args.max (cli seed 0 0) = 0%Z
  ∧ reach ring_site (cli seed 0 0)
      (yield ring_site (cli seed 0 0)
         (dispatch
            (yield ring_site (cli seed 0 0)
               (yield ring_site (cli seed 0 0)
                  (dispatch (yield ring_site (cli seed 0 0)
                               (dispatch (init seed)) seed)) page_a) page_b))
         page_b)
  ∧ finished
      (yield ring_site (cli seed 0 0)
         (dispatch
            (yield ring_site (cli seed 0 0)
               (yield ring_site (cli seed 0 0)
                  (dispatch (yield ring_site (cli seed 0 0)
                               (dispatch (init seed)) seed)) page_a) page_b))
         page_b)
  ∧ reach ring_site (cli seed 0 0)
      (yield ring_site (cli seed 0 0)
         (dispatch
            (yield ring_site (cli seed 0 0)
               (yield ring_site (cli seed 0 0)
                  (dispatch (yield ring_site (cli seed 0 0)
                               (dispatch (init seed)) seed)) page_b) page_a))
         page_a)
  ∧ finished
      (yield ring_site (cli seed 0 0)
         (dispatch
            (yield ring_site (cli seed 0 0)
               (yield ring_site (cli seed 0 0)
                  (dispatch (yield ring_site (cli seed 0 0)
                               (dispatch (init seed)) seed)) page_b) page_a))
         page_a)
  ∧ returned
      (yield ring_site (cli seed 0 0)
         (dispatch
            (yield ring_site (cli seed 0 0)
               (yield ring_site (cli seed 0 0)
                  (dispatch (yield ring_site (cli seed 0 0)
                               (dispatch (init seed)) seed)) page_a) page_b))
         page_b)
    = returned
        (yield ring_site (cli seed 0 0)
           (dispatch
              (yield ring_site (cli seed 0 0)
                 (yield ring_site (cli seed 0 0)
                    (dispatch (yield ring_site (cli seed 0 0)
                                 (dispatch (init seed)) seed)) page_b) page_a))
           page_a).
Proof.
  assert (reach ring_site (cli seed 0 0)
      (yield ring_site (cli seed 0 0)
         (dispatch
            (yield ring_site (cli seed 0 0)
               (yield ring_site (cli seed 0 0)
                  (dispatch (yield ring_site (cli seed 0 0)
                               (dispatch (init seed)) seed)) page_a) page_b))
         page_b)) as H2.
  { apply (crawl_website_reachable _ _ _ _ _ 1%Z
             [Dispatch; Complete seed; Dispatch; Complete page_a;
              Complete page_b; Dispatch; Complete page_b]).
    vm_compute. reflexivity. }
  assert (finished
      (yield ring_site (cli seed 0 0)
         (dispatch
            (yield ring_site (cli seed 0 0)
               (yield ring_site (cli seed 0 0)
                  (dispatch (yield ring_site (cli seed 0 0)
                               (dispatch (init seed)) seed)) page_a) page_b))
         page_b)) as H3 by (right; split; compute_done).
  assert (reach ring_site (cli seed 0 0)
      (yield ring_site (cli seed 0 0)
         (dispatch
            (yield ring_site (cli seed 0 0)
               (yield ring_site (cli seed 0 0)
                  (dispatch (yield ring_site (cli seed 0 0)
                               (dispatch (init seed)) seed)) page_b) page_a))
         page_a)) as H4.
  { apply (crawl_website_reachable _ _ _ _ _ 1%Z
             [Dispatch; Complete seed; Dispatch; Complete page_b;
              Complete page_a; Dispatch; Complete page_a]).
    vm_compute. reflexivity. }
  assert (finished
      (yield ring_site (cli seed 0 0)
         (dispatch
            (yield ring_site (cli seed 0 0)
               (yield ring_site (cli seed 0 0)
                  (dispatch (yield ring_site (cli seed 0 0)
                               (dispatch (init seed)) seed)) page_b) page_a))
         page_a)) as H5 by (right; split; compute_done).
  split; [reflexivity|]. split; [exact H2|]. split; [exact H3|].
  split; [exact H4|]. split; [exact H5|].
  exact (proj2 (proj2 (proj2 (unlimited_crawl_is_order_independent
                                urlparse_model urljoin_model
                                (serve ring_site) (cli seed 0 0) seed _ _
                                eq_refl H2 H3 H4 H5)))).
Defined.


(** C7 fails on the code. Under [-m 1 -d 1] the seed of the deep site is
    crawled: its page holds the link [/a/b/c], of depth 3, in the
    internal set of its task; the completion reaches the limit and
    nothing of the page is recorded. *)
Lemma deep_link_is_not_recorded_at_max :
  (0 < Args.depth (cli seed 1 1))%Z
  ∧ reach deep_site (cli seed 1 1) (dispatch (init seed))
  ∧ seed ∈ pending (dispatch (init seed))
  ∧ deep ∈ internal (task deep_site (cli seed 1 1) seed).2
  ∧ (Args.depth (cli seed 1 1)
     < Z.of_nat (get_path_depth urlparse_model deep))%Z
  ∧ seed
    ∈ visited (yield deep_site (cli seed 1 1) (dispatch (init seed)) seed)
  ∧ (deep
     ∉ all_internal
         (yield deep_site (cli seed 1 1) (dispatch (init seed)) seed))
  ∧ finished (yield deep_site (cli seed 1 1) (dispatch (init seed)) seed)
  ∧ returned (yield deep_site (cli seed 1 1) (dispatch (init seed)) seed)
    = (∅, ∅, ∅, ∅).
Proof.
  split; [simpl; lia|]. split.
  { apply (crawl_website_reachable _ _ _ _ _ 1%Z [Dispatch]).
    vm_compute. reflexivity. }
  split; [compute_done|]. split; [compute_done|]. split; [compute_done|].
  split; [compute_done|]. split; [compute_done|].
  split; [left; compute_done|compute_done].
Qed.

(** C9 on the code. The seed is [https://www.wikipedia.org/] and its page
    links to [https://ikipedia.org/b], a URL of another host.
    [get_hostname] gives [ikipedia.org] for both (the [lstrip] of C1),
    so the link is classed internal, queued, fetched in the next batch
    and its own link [/c] queued in turn. *)
Theorem another_host_is_crawled :
  hostname (urlparse_model "https://www.wikipedia.org/")
  = Some "www.wikipedia.org"
  ∧ hostname (urlparse_model "https://ikipedia.org/b") = Some "ikipedia.org"
  ∧ get_hostname urlparse_model "https://ikipedia.org/b"
    = get_hostname urlparse_model "https://www.wikipedia.org/"
  ∧ ∃ s, crawl_website urlparse_model urljoin_model (serve wiki_site)
           (cli "https://www.wikipedia.org/" 0 0)
           "https://www.wikipedia.org/" 1
           [Dispatch; Complete "https://www.wikipedia.org/"; Dispatch;
            Complete "https://ikipedia.org/b"] = Some s
         ∧ "https://ikipedia.org/b" ∈ all_internal s
         ∧ "https://ikipedia.org/b" ∈ current_batch s
         ∧ "https://ikipedia.org/b" ∈ visited s
         ∧ internal (process_url urlparse_model urljoin_model
                       (serve wiki_site)
                       (cli "https://www.wikipedia.org/" 0 0)
                       "https://www.wikipedia.org/"
                       "https://ikipedia.org/b").2
           = {["https://ikipedia.org/c"]}
         ∧ to_visit s = {["https://ikipedia.org/c"]}.
Proof.
  split; [compute_done|]. split; [compute_done|]. split; [compute_done|].
  eexists. split; [vm_compute; reflexivity|].
  repeat split; compute_done.
Qed.
